(** * Verification of [sync_strings.py]

    A shallow embedding of the string-resource synchronizer: the two regular
    expressions it compiles, the reading and writing of the resource files,
    [load_translations], [sync_file] and [main], followed by the properties
    of the synchronization that the specification states.

    Python [str] values are sequences of Unicode code points; they are
    modelled as lists of [N].  The host is taken to be POSIX (the paths of
    the program use [/]): [os.path.join] is [posixpath.join] and
    [os.linesep] is a single line feed. *)

From Stdlib Require Import NArith Ascii String.
From stdpp Require Import base option list gmap.

Local Open Scope list_scope.

(** ** Text *)

Abbreviation char := N (only parsing).
Abbreviation text := (list N) (only parsing).

(** The code points of an ASCII literal. *)
Fixpoint cp (s : string) : text :=
  match s with
  | EmptyString => []
  | String a s' => N_of_ascii a :: cp s'
  end.
Arguments cp s%_string.

Definition LF : char := 10%N.
Definition CR : char := 13%N.
Definition QUOTE : char := 34%N.
Definition GT : char := 62%N.
Definition LT : char := 60%N.

Fixpoint text_eqb (a b : text) : bool :=
  match a, b with
  | [], [] => true
  | x :: a', y :: b' => N.eqb x y && text_eqb a' b'
  | _, _ => false
  end.

(** [s.startswith(p)], returning what follows the prefix. *)
Fixpoint strip_prefix (p s : text) : option text :=
  match p with
  | [] => Some s
  | c :: p' =>
      match s with
      | [] => None
      | d :: s' => if N.eqb c d then strip_prefix p' s' else None
      end
  end.

Definition startswith (s p : text) : bool :=
  match strip_prefix p s with Some _ => true | None => false end.

Fixpoint endswith_char (s : text) (c : char) : bool :=
  match s with
  | [] => false
  | [d] => N.eqb d c
  | _ :: s' => endswith_char s' c
  end.

(** [s.find(sub)]: where [sub] first occurs in [s]. *)
Fixpoint find (sub s : text) : option nat :=
  match strip_prefix sub s with
  | Some _ => Some 0
  | None =>
      match s with
      | [] => None
      | _ :: s' => S <$> find sub s'
      end
  end.

(** [s[a:b]] for [0 <= a <= b]. *)
Definition slice (s : text) (a b : nat) : text := take (b - a) (drop a s).

(** ** The fragment of Python's [re] that the program uses

    Character sets, literals, greedy and lazy repetition of a character set,
    concatenation and numbered capture groups.  The matcher is the
    backtracking one of the library: alternatives are explored in priority
    order (a greedy repetition from the longest run down, a lazy one from the
    shortest up) and the first complete match is returned. *)

Module Re.

Inductive cset :=
| CSpace                 (* \s *)
| CNot (c : char)        (* [^c] *)
| CDot (dotall : bool).  (* . *)

(** [str.isspace] on one code point, which is what [\s] tests in a [str]
    pattern. *)
Definition is_space (c : char) : bool :=
  (((9 <=? c) && (c <=? 13)) || ((28 <=? c) && (c <=? 32)) ||
   (c =? 133) || (c =? 160) || (c =? 5760) ||
   ((8192 <=? c) && (c <=? 8202)) || (c =? 8232) || (c =? 8233) ||
   (c =? 8239) || (c =? 8287) || (c =? 12288))%N.

Definition cset_mem (cs : cset) (c : char) : bool :=
  match cs with
  | CSpace => is_space c
  | CNot d => negb (N.eqb c d)
  | CDot dotall => dotall || negb (N.eqb c LF)
  end.

Inductive regex :=
| REps
| RStr (l : text)
| RRep (cs : cset) (min : nat) (greedy : bool)
| RCat (r1 r2 : regex)
| RGroup (n : nat) (r : regex).

Definition seq_of (rs : list regex) : regex := foldr RCat REps rs.

(** Group spans, most recent first. *)
Definition captures := list (nat * (nat * nat)).

Fixpoint cap_lookup (caps : captures) (n : nat) : option (nat * nat) :=
  match caps with
  | [] => None
  | (m, sp) :: caps' => if Nat.eqb m n then Some sp else cap_lookup caps' n
  end.

Section Matcher.
Context {A : Type}.

(** [cs{min,}] greedy: take as many as possible, then give back one at a
    time. *)
Fixpoint rep_greedy (cs : cset) (min : nat) (s : text) (pos : nat)
    (k : text -> nat -> option A) : option A :=
  let stop := match min with O => k s pos | S _ => None end in
  match s with
  | c :: s' =>
      if cset_mem cs c then
        match rep_greedy cs (Nat.pred min) s' (S pos) k with
        | Some x => Some x
        | None => stop
        end
      else stop
  | [] => stop
  end.

(** [cs{min,}?] lazy: take as few as possible, then one more at a time. *)
Fixpoint rep_lazy (cs : cset) (min : nat) (s : text) (pos : nat)
    (k : text -> nat -> option A) : option A :=
  match min with
  | O =>
      match k s pos with
      | Some x => Some x
      | None =>
          match s with
          | c :: s' =>
              if cset_mem cs c then rep_lazy cs O s' (S pos) k else None
          | [] => None
          end
      end
  | S min' =>
      match s with
      | c :: s' =>
          if cset_mem cs c then rep_lazy cs min' s' (S pos) k else None
      | [] => None
      end
  end.

Fixpoint rmatch (r : regex) (s : text) (pos : nat) (caps : captures)
    (k : text -> nat -> captures -> option A) : option A :=
  match r with
  | REps => k s pos caps
  | RStr l =>
      match strip_prefix l s with
      | Some s' => k s' (pos + length l) caps
      | None => None
      end
  | RRep cs min true => rep_greedy cs min s pos (fun s' p' => k s' p' caps)
  | RRep cs min false => rep_lazy cs min s pos (fun s' p' => k s' p' caps)
  | RCat r1 r2 =>
      rmatch r1 s pos caps (fun s' p' caps' => rmatch r2 s' p' caps' k)
  | RGroup n r =>
      rmatch r s pos caps (fun s' p' caps' => k s' p' ((n, (pos, p')) :: caps'))
  end.
End Matcher.

(** A match object: the span of the whole match and of each group. *)
Record match_obj := Match { m_start : nat; m_end : nat; m_caps : captures }.

(** [pattern.match(s, pos)], on the suffix of the subject that starts at
    [pos]. *)
Definition match_at (r : regex) (s : text) (pos : nat) : option match_obj :=
  rmatch r s pos [] (fun _ e caps => Some (Match pos e caps)).

(** [pattern.search(s)]: the match at the leftmost position that has one. *)
Fixpoint search_from (r : regex) (s : text) (pos : nat) : option match_obj :=
  match match_at r s pos with
  | Some m => Some m
  | None =>
      match s with
      | [] => None
      | _ :: s' => search_from r s' (S pos)
      end
  end.

Definition search (r : regex) (s : text) : option match_obj := search_from r s 0.

(** [pattern.finditer(s)]: successive matches, each searched from the end of
    the one before; [skip] counts the characters still inside the last
    match.  After an empty match the scan moves on by one character. *)
Fixpoint finditer_from (r : regex) (s : text) (pos skip : nat) : list match_obj :=
  match skip with
  | S skip' =>
      match s with
      | [] => []
      | _ :: s' => finditer_from r s' (S pos) skip'
      end
  | O =>
      match match_at r s pos with
      | Some m =>
          m :: match s with
               | [] => []
               | _ :: s' => finditer_from r s' (S pos) (m_end m - pos - 1)
               end
      | None =>
          match s with
          | [] => []
          | _ :: s' => finditer_from r s' (S pos) 0
          end
      end
  end.

Definition finditer (r : regex) (s : text) : list match_obj := finditer_from r s 0 0.

(** [m.group(n)] on subject [s]; a group that did not take part is the empty
    text here (the patterns of the program have no optional group). *)
Definition group (s : text) (m : match_obj) (n : nat) : text :=
  match cap_lookup (m_caps m) n with
  | Some (a, b) => slice s a b
  | None => []
  end.

(** *** The declarative reading of a pattern *)

Definition all_in (cs : cset) (l : text) : Prop :=
  Forall (fun c => cset_mem cs c = true) l.

(** [matches r s pos caps s' pos' caps']: [r] consumes a prefix of [s] and
    leaves [s'], moving the position and recording the groups it closes. *)
Fixpoint matches (r : regex) (s : text) (pos : nat) (caps : captures)
    (s' : text) (pos' : nat) (caps' : captures) : Prop :=
  match r with
  | REps => s' = s /\ pos' = pos /\ caps' = caps
  | RStr l => s = l ++ s' /\ pos' = pos + length l /\ caps' = caps
  | RRep cs min _ =>
      exists l, s = l ++ s' /\ all_in cs l /\ min <= length l /\
                pos' = pos + length l /\ caps' = caps
  | RCat r1 r2 =>
      exists s1 p1 c1, matches r1 s pos caps s1 p1 c1 /\
                       matches r2 s1 p1 c1 s' pos' caps'
  | RGroup n r =>
      exists c1, matches r s pos caps s' pos' c1 /\
                 caps' = (n, (pos, pos')) :: c1
  end.

End Re.

(** ** Text files

    A file opened in text mode with the default [newline=None] translates
    [\r\n] and a lone [\r] to [\n] when it is read; on a POSIX host nothing
    is translated when it is written. *)

Fixpoint universal_newlines (s : text) : text :=
  match s with
  | [] => []
  | c :: s' =>
      if N.eqb c CR then
        match s' with
        | d :: s'' => if N.eqb d LF then LF :: universal_newlines s''
                      else LF :: universal_newlines s'
        | [] => [LF]
        end
      else c :: universal_newlines s'
  end.

(** [f.readlines()]: the text cut after every line feed, the line feeds
    kept; [cur] is the line being read, reversed. *)
Fixpoint readlines_acc (s : text) (cur : text) : list text :=
  match s with
  | [] => match cur with [] => [] | _ => [rev cur] end
  | c :: s' =>
      if N.eqb c LF then rev (c :: cur) :: readlines_acc s' []
      else readlines_acc s' (c :: cur)
  end.

Definition readlines (s : text) : list text := readlines_acc s [].

(** ** The file system and the effects of the program *)

Inductive node :=
| File (content : text)
| Dir (entries : list text).

Inductive exn :=
| FileNotFoundError (p : text)
| IsADirectoryError (p : text)
| NotADirectoryError (p : text).

(** The lines the program prints. *)
Inductive message :=
| MsgSource (p : text)
| MsgEnglishNotFound
| MsgFound (n : nat) (ds : list text)
| MsgSyncing (p : text)
| MsgComplete.

Inductive event :=
| EvPrint (m : message)
| EvExists (p : text)
| EvIsDir (p : text)
| EvListDir (p : text)
| EvRead (p : text)
| EvWrite (p : text) (data : text).

Record world := World { w_fs : gmap text node; w_log : list event }.

Definition io (A : Type) : Type := world -> (exn + A) * world.

Definition ret {A} (a : A) : io A := fun w => (inr a, w).
Definition raise {A} (e : exn) : io A := fun w => (inl e, w).
Definition bind {A B} (m : io A) (f : A -> io B) : io B :=
  fun w => match m w with
           | (inr a, w') => f a w'
           | (inl e, w') => (inl e, w')
           end.

Notation "x <- m ;; k" := (bind m (fun x => k))
  (at level 100, m at next level, right associativity).
Notation "m ;;; k" := (bind m (fun _ => k))
  (at level 100, right associativity).

Definition emit (e : event) : io unit :=
  fun w => (inr tt, World (w_fs w) (w_log w ++ [e])).

Definition print (m : message) : io unit := emit (EvPrint m).

Module os.

(** [posixpath.join(a, *p)]. *)
Definition join2 (path b : text) : text :=
  if startswith b (cp "/") then b
  else match path with
       | [] => b
       | _ => if endswith_char path 47%N then path ++ b else path ++ cp "/" ++ b
       end.

Definition join (a : text) (p : list text) : text := foldl join2 a p.

Definition exists_ (p : text) : io bool :=
  fun w => (inr (bool_decide (is_Some (w_fs w !! p))),
            World (w_fs w) (w_log w ++ [EvExists p])).

Definition isdir (p : text) : io bool :=
  fun w => (inr match w_fs w !! p with Some (Dir _) => true | _ => false end,
            World (w_fs w) (w_log w ++ [EvIsDir p])).

Definition listdir (p : text) : io (list text) :=
  fun w =>
    let w' := World (w_fs w) (w_log w ++ [EvListDir p]) in
    match w_fs w !! p with
    | Some (Dir es) => (inr es, w')
    | Some (File _) => (inl (NotADirectoryError p), w')
    | None => (inl (FileNotFoundError p), w')
    end.

End os.

(** [open(p, 'r', encoding='utf-8')] followed by [f.read()]. *)
Definition read_file (p : text) : io text :=
  fun w =>
    let w' := World (w_fs w) (w_log w ++ [EvRead p]) in
    match w_fs w !! p with
    | Some (File c) => (inr (universal_newlines c), w')
    | Some (Dir _) => (inl (IsADirectoryError p), w')
    | None => (inl (FileNotFoundError p), w')
    end.

(** [open(p, 'w', encoding='utf-8')] followed by [f.writelines(ls)]. *)
Definition write_lines (p : text) (ls : list text) : io unit :=
  fun w =>
    let data := concat ls in
    let w' := World (<[p := File data]> (w_fs w)) (w_log w ++ [EvWrite p data]) in
    match w_fs w !! p with
    | Some (Dir _) => (inl (IsADirectoryError p), World (w_fs w) (w_log w))
    | _ => (inr tt, w')
    end.

(** ** The program *)

Import Re.

Definition ENGLISH_FILE : text := cp "app/src/main/res/values/strings.xml".
Definition VALUES_DIR : text := cp "app/src/main/res".

Definition OPEN_TAG : text := cp "<string".
Definition NAME_ATTR : text := cp "name=" ++ [QUOTE].
Definition CLOSE_TAG : text := cp "</string>".
Definition TODO_PREFIX : text := cp "TODO: ".

(** The pattern of [load_translations], compiled with [re.DOTALL]; with Q
    for the double quote it reads
    [<string\s+[^>]*name=Q([^Q]+)Q[^>]*>(.*?)</string>]. *)
Definition translation_pattern : regex :=
  seq_of [ RStr OPEN_TAG; RRep CSpace 1 true; RRep (CNot GT) 0 true;
           RStr NAME_ATTR;
           RGroup 1 (RRep (CNot QUOTE) 1 true);
           RStr [QUOTE]; RRep (CNot GT) 0 true; RStr [GT];
           RGroup 2 (RRep (CDot true) 0 false);
           RStr CLOSE_TAG ].

(** The pattern of [sync_file], without flags:
    [(<string\s+[^>]*name=Q)([^Q]+)(Q[^>]*>)(.*?)(</string>)]. *)
Definition line_pattern : regex :=
  seq_of [ RGroup 1 (seq_of [ RStr OPEN_TAG; RRep CSpace 1 true;
                              RRep (CNot GT) 0 true; RStr NAME_ATTR ]);
           RGroup 2 (RRep (CNot QUOTE) 1 true);
           RGroup 3 (seq_of [ RStr [QUOTE]; RRep (CNot GT) 0 true; RStr [GT] ]);
           RGroup 4 (RRep (CDot false) 0 false);
           RGroup 5 (RStr CLOSE_TAG) ].

(** The loop of [load_translations] over [pattern.finditer(content)]. *)
Definition collect_translations (content : text) : gmap text text :=
  foldl (fun translations m =>
           let name := group content m 1 in
           let value := group content m 2 in
           <[name := value]> translations)
        ∅ (finditer translation_pattern content).

Definition load_translations (file_path : text) : io (gmap text text) :=
  found <- os.exists_ file_path ;;
  if negb found then ret ∅
  else
    content <- read_file file_path ;;
    ret (collect_translations content).

(** The body of the loop of [sync_file] for one line of the English file:
    the line that is appended to [new_lines]. *)
Definition rewrite_line (current_translations : gmap text text) (line : text) : text :=
  match search line_pattern line with
  | Some m =>
      let prefix_start := group line m 1 in
      let key := group line m 2 in
      let prefix_end := group line m 3 in
      let suffix := group line m 5 in
      let line_start := take (m_start m) line in
      let line_end := drop (m_end m) line in
      match current_translations !! key with
      | Some localized_value =>
          line_start ++ prefix_start ++ key ++ prefix_end ++
          localized_value ++ suffix ++ line_end
      | None =>
          let english_value := group line m 4 in
          let new_value := TODO_PREFIX ++ english_value in
          line_start ++ prefix_start ++ key ++ prefix_end ++
          new_value ++ suffix ++ line_end
      end
  | None => line
  end.

Definition rewrite_lines (current_translations : gmap text text) (lines : list text)
    : list text :=
  foldl (fun new_lines line => new_lines ++ [rewrite_line current_translations line])
        [] lines.

(** [os.path.join(VALUES_DIR, target_dir_name, 'strings.xml')]. *)
Definition target_file_of (target_dir_name : text) : text :=
  os.join VALUES_DIR [target_dir_name; cp "strings.xml"].

Definition sync_file (target_dir_name : text) : io unit :=
  if negb (startswith target_dir_name (cp "values-")) then ret tt
  else
    let target_file := target_file_of target_dir_name in
    found <- os.exists_ target_file ;;
    if negb found then ret tt
    else
      print (MsgSyncing target_file) ;;;
      current_translations <- load_translations target_file ;;
      content <- read_file ENGLISH_FILE ;;
      let lines := readlines content in
      let new_lines := rewrite_lines current_translations lines in
      write_lines target_file new_lines.

(** The list comprehension of [main]: [isdir] is asked only of the names
    that start with the prefix. *)
Fixpoint select_target_dirs (names : list text) : io (list text) :=
  match names with
  | [] => ret []
  | d :: names' =>
      keep <- (if startswith d (cp "values-")
               then os.isdir (os.join VALUES_DIR [d]) else ret false) ;;
      rest <- select_target_dirs names' ;;
      ret (if keep then d :: rest else rest)
  end.

Fixpoint for_each {A} (l : list A) (body : A -> io unit) : io unit :=
  match l with
  | [] => ret tt
  | x :: l' => body x ;;; for_each l' body
  end.

Definition main : io unit :=
  print (MsgSource ENGLISH_FILE) ;;;
  found <- os.exists_ ENGLISH_FILE ;;
  if negb found then print MsgEnglishNotFound
  else
    names <- os.listdir VALUES_DIR ;;
    target_dirs <- select_target_dirs names ;;
    print (MsgFound (length target_dirs) target_dirs) ;;;
    for_each target_dirs sync_file ;;;
    print MsgComplete.



(** ** Vocabulary of the statements *)

(** The log of a run of [sync_file] that reaches the write. *)
Definition sync_events (target_file : text) (data : text) : list event :=
  [ EvExists target_file; EvPrint (MsgSyncing target_file);
    EvExists target_file; EvRead target_file; EvRead ENGLISH_FILE;
    EvWrite target_file data ].

(** What [sync_file] writes when the target file holds [T] and the English
    file holds [C]. *)
Definition synced (T C : text) : text :=
  concat (rewrite_lines (collect_translations (universal_newlines T))
                        (readlines (universal_newlines C))).

(** The entry [<string name=Qkey Q>content</string>] on one line. *)
Definition simple_open (key : text) : text :=
  OPEN_TAG ++ cp " " ++ NAME_ATTR ++ key ++ [QUOTE; GT].

Definition simple_entry (key content : text) : text :=
  simple_open key ++ content ++ CLOSE_TAG.

(** A resource tree with the English file and one French target. *)
Definition demo_world (C T : text) : world :=
  World {[ ENGLISH_FILE := File C; target_file_of (cp "values-fr") := File T ]} [].

(** The lines of a text: each of [bodies] followed by a line feed, then
    [tail], what follows the last line feed, when there is any. *)
Definition lines_of (bodies : list text) (tail : text) : list text :=
  map (fun body => body ++ [LF]) bodies ++
  match tail with [] => [] | _ => [tail] end.

(** The paths that a log writes to. *)
Definition written (log : list event) : list text :=
  omap (fun e => match e with EvWrite p _ => Some p | _ => None end) log.

(** The test of the list comprehension of [main] on one name. *)
Definition is_target_dir (fs : gmap text node) (d : text) : bool :=
  startswith d (cp "values-") &&
  match fs !! os.join VALUES_DIR [d] with Some (Dir _) => true | _ => false end.

(** The [isdir] tests that the list comprehension logs. *)
Definition isdir_events (names : list text) : list event :=
  map (fun d => EvIsDir (os.join VALUES_DIR [d]))
      (List.filter (fun d => startswith d (cp "values-")) names).

(** ** Files made of simple entries *)

Definition EQUALS : char := 61%N.

(** A key written as resource names are: not empty, without quote, [>] or
    [=]. *)
Definition key_ok (k : text) : Prop :=
  k <> [] /\ (QUOTE ∉ k) /\ (GT ∉ k) /\ (EQUALS ∉ k).

(** The character that follows a run does not belong to the set. *)
Definition stops (cs : Re.cset) (s : text) : Prop :=
  match s with [] => True | c :: _ => Re.cset_mem cs c = false end.

(** [<string] does not occur in the text. *)
Definition no_open (s : text) : Prop := find OPEN_TAG s = None.

(** [</string>] does not occur in the value, also not across its end when
    the closing tag follows it. *)
Definition closed_value (v : text) : Prop :=
  find CLOSE_TAG (v ++ CLOSE_TAG) = Some (length v).

(** An entry [<string name=QkeyQ>value</string>] and the text before it. *)
Record entry := Entry { e_gap : text; e_key : text; e_value : text }.

Fixpoint render (es : list entry) (final : text) : text :=
  match es with
  | [] => final
  | e :: es' => e_gap e ++ simple_entry (e_key e) (e_value e) ++ render es' final
  end.

Definition entry_ok (e : entry) : Prop :=
  no_open (e_gap e) /\ key_ok (e_key e) /\ closed_value (e_value e).


(** The table of a sequence of entries: a later entry replaces an earlier
    one with the same key. *)
Definition entries_table (es : list entry) : gmap text text :=
  foldl (fun translations e => <[e_key e := e_value e]> translations) ∅ es.





(** The value that [rewrite_line] puts in an entry. *)
Definition new_value (tr : gmap text text) (key value : text) : text :=
  match tr !! key with
  | Some localized_value => localized_value
  | None => TODO_PREFIX ++ value
  end.



(** * Properties *)

(** ** Text lemmas *)

Lemma strip_prefix_Some p s s' : strip_prefix p s = Some s' <-> s = p ++ s'.
Proof.
  revert s. induction p as [|c p IH]; intros s; simpl.
  - split; congruence.
  - destruct s as [|d s]; [split; discriminate|].
    destruct (N.eqb_spec c d) as [->|Hne].
    + rewrite IH. split; congruence.
    + split; [discriminate|]. intros [= <- _]. congruence.
Qed.

Lemma strip_prefix_app p s : strip_prefix p (p ++ s) = Some s.
Proof. by apply strip_prefix_Some. Qed.

Lemma slice_app (pre x post : text) :
  slice (pre ++ x ++ post) (length pre) (length pre + length x) = x.
Proof.
  unfold slice. rewrite drop_app_length.
  replace (length pre + length x - length pre) with (length x) by lia.
  by rewrite take_app_length.
Qed.

(** ** The matcher is sound for the declarative reading of a pattern *)

Section Sound.
Context {A : Type}.

Lemma rep_greedy_sound cs min s pos (k : text -> nat -> option A) x :
  rep_greedy cs min s pos k = Some x ->
  exists l s', s = l ++ s' /\ all_in cs l /\ min <= length l /\
               k s' (pos + length l) = Some x.
Proof.
  revert min pos. induction s as [|c s IH]; intros min pos; simpl.
  - destruct min; [|discriminate]. intros Hk.
    exists [], []. rewrite Nat.add_0_r. repeat split; auto. constructor.
  - assert (Hstop : match min with 0 => k (c :: s) pos | S _ => None end = Some x ->
              exists l s', c :: s = l ++ s' /\ all_in cs l /\ min <= length l /\
                           k s' (pos + length l) = Some x).
    { destruct min; [|discriminate]. intros Hk.
      exists [], (c :: s). rewrite Nat.add_0_r. repeat split; auto. constructor. }
    destruct (cset_mem cs c) eqn:Hc; [|exact Hstop].
    destruct (rep_greedy cs (Nat.pred min) s (S pos) k) eqn:Hrec; [|exact Hstop].
    intros [= ->]. apply IH in Hrec as (l & s' & -> & Hl & Hmin & Hk).
    exists (c :: l), s'. simpl. repeat split; auto.
    + by constructor.
    + lia.
    + by rewrite <- Hk; f_equal; lia.
Qed.

Lemma rep_lazy_sound cs min s pos (k : text -> nat -> option A) x :
  rep_lazy cs min s pos k = Some x ->
  exists l s', s = l ++ s' /\ all_in cs l /\ min <= length l /\
               k s' (pos + length l) = Some x.
Proof.
  revert min pos. induction s as [|c s IH]; intros min pos; simpl.
  - destruct min; [|discriminate]. destruct (k [] pos) eqn:Hk; [|discriminate].
    intros [= ->]. exists [], []. rewrite Nat.add_0_r. repeat split; auto. constructor.
  - assert (Hmore : forall m, (if cset_mem cs c then rep_lazy cs m s (S pos) k else None) = Some x ->
              exists l s', c :: s = l ++ s' /\ all_in cs l /\ S m <= length l /\
                           k s' (pos + length l) = Some x).
    { intros m. destruct (cset_mem cs c) eqn:Hc; [|discriminate].
      intros Hrec. apply IH in Hrec as (l & s' & -> & Hl & Hmin & Hk).
      exists (c :: l), s'. simpl. repeat split; auto.
      - by constructor.
      - lia.
      - by rewrite <- Hk; f_equal; lia. }
    destruct min as [|min].
    + destruct (k (c :: s) pos) eqn:Hk.
      * intros [= ->]. exists [], (c :: s). rewrite Nat.add_0_r.
        repeat split; auto. constructor.
      * intros H. apply Hmore in H as (l & s' & ? & ? & ? & ?).
        exists l, s'. repeat split; auto. lia.
    + apply Hmore.
Qed.

Lemma rmatch_sound r : forall s pos caps (k : text -> nat -> captures -> option A) x,
  rmatch r s pos caps k = Some x ->
  exists s' pos' caps', matches r s pos caps s' pos' caps' /\ k s' pos' caps' = Some x.
Proof.
  induction r as [|l|cs min g|r1 IH1 r2 IH2|n r IH]; intros s pos caps k x; simpl.
  - intros Hk. by exists s, pos, caps.
  - destruct (strip_prefix l s) as [s'|] eqn:Hs; [|discriminate].
    apply strip_prefix_Some in Hs. intros Hk. by exists s', (pos + length l), caps.
  - intros H.
    assert (exists l s', s = l ++ s' /\ all_in cs l /\ min <= length l /\
                         k s' (pos + length l) caps = Some x) as (l & s' & ? & ? & ? & ?).
    { destruct g; [by apply rep_greedy_sound in H | by apply rep_lazy_sound in H]. }
    exists s', (pos + length l), caps. split; [|done]. by exists l.
  - intros H. apply IH1 in H as (s1 & p1 & c1 & H1 & H).
    apply IH2 in H as (s2 & p2 & c2 & H2 & H).
    exists s2, p2, c2. split; [|done]. by exists s1, p1, c1.
  - intros H. apply IH in H as (s1 & p1 & c1 & H1 & H).
    exists s1, p1, ((n, (pos, p1)) :: c1). split; [|done]. by exists c1.
Qed.
End Sound.

Lemma match_at_sound r s pos m :
  match_at r s pos = Some m ->
  exists s' caps, matches r s pos [] s' (m_end m) caps /\
                  m = Match pos (m_end m) caps.
Proof.
  unfold match_at. intros H.
  apply rmatch_sound in H as (s' & e & caps & Hm & [= <-]).
  by exists s', caps.
Qed.

(** [search_from] returns the match at the first position that has one. *)
Lemma search_from_inv r s pos m :
  search_from r s pos = Some m ->
  exists pre post, s = pre ++ post /\ match_at r post (pos + length pre) = Some m /\
    forall i, i < length pre -> match_at r (drop i s) (pos + i) = None.
Proof.
  revert pos. induction s as [|c s IH]; intros pos; simpl.
  - destruct (match_at r [] pos) eqn:H0; [|discriminate]. intros [= ->].
    exists [], []. rewrite Nat.add_0_r. repeat split; auto. simpl; lia.
  - destruct (match_at r (c :: s) pos) eqn:H0.
    + intros [= ->]. exists [], (c :: s). rewrite Nat.add_0_r.
      repeat split; auto. simpl; lia.
    + intros H. apply IH in H as (pre & post & -> & Hm & Hfail).
      exists (c :: pre), post. simpl. split; [done|]. split.
      * by rewrite <- Hm; f_equal; lia.
      * intros [|i] Hi; simpl.
        -- by rewrite Nat.add_0_r.
        -- replace (pos + S i) with (S pos + i) by lia. apply Hfail. lia.
Qed.


(** ** What a match of the line pattern looks like *)

Lemma slice_of_split (s : text) a b pre x post :
  s = pre ++ x ++ post -> a = length pre -> b = a + length x -> slice s a b = x.
Proof. intros -> -> ->. apply slice_app. Qed.

Lemma line_match_shape line m :
  search line_pattern line = Some m ->
  exists ls ws a key b g4 le,
    line = ls ++ (OPEN_TAG ++ ws ++ a ++ NAME_ATTR) ++ key ++
           ([QUOTE] ++ b ++ [GT]) ++ g4 ++ CLOSE_TAG ++ le /\
    all_in CSpace ws /\ 1 <= length ws /\ all_in (CNot GT) a /\
    all_in (CNot QUOTE) key /\ 1 <= length key /\
    all_in (CNot GT) b /\ all_in (CDot false) g4 /\
    take (m_start m) line = ls /\
    group line m 1 = OPEN_TAG ++ ws ++ a ++ NAME_ATTR /\
    group line m 2 = key /\
    group line m 3 = [QUOTE] ++ b ++ [GT] /\
    group line m 4 = g4 /\
    group line m 5 = CLOSE_TAG /\
    drop (m_end m) line = le.
Proof.
  unfold search. intros H.
  apply search_from_inv in H as (pre & post & -> & Hm & _).
  apply match_at_sound in Hm as (s' & caps & Hm & ->).
  unfold line_pattern, seq_of in Hm. cbn [foldr matches] in Hm.
  repeat match goal with
         | H : exists _, _ |- _ => destruct H
         | H : _ /\ _ |- _ => destruct H
         end; subst.
  rename x40 into ws, x44 into a, x30 into key, x29 into b, x19 into g4, x14 into le.
  exists pre, ws, a, key, b, g4, le.
  cbn [m_start m_end].
  split_and!; try done.
  - by rewrite <- !(assoc_L (++)).
  - by rewrite Nat.add_0_l, take_app_length.
  - unfold group; cbn [m_caps cap_lookup Nat.eqb].
    apply (slice_of_split _ _ _ pre _ (key ++ [QUOTE] ++ b ++ [GT] ++ g4 ++ CLOSE_TAG ++ le)).
    + by rewrite <- !(assoc_L (++)).
    + lia.
    + rewrite ?length_app; simpl; rewrite ?length_app; simpl; lia.
  - unfold group; cbn [m_caps cap_lookup Nat.eqb].
    apply (slice_of_split _ _ _ (pre ++ OPEN_TAG ++ ws ++ a ++ NAME_ATTR) _
             ([QUOTE] ++ b ++ [GT] ++ g4 ++ CLOSE_TAG ++ le)).
    + by rewrite <- !(assoc_L (++)).
    + rewrite ?length_app; simpl; rewrite ?length_app; simpl; lia.
    + lia.
  - unfold group; cbn [m_caps cap_lookup Nat.eqb].
    apply (slice_of_split _ _ _ (pre ++ OPEN_TAG ++ ws ++ a ++ NAME_ATTR ++ key) _
             (g4 ++ CLOSE_TAG ++ le)).
    + by rewrite <- !(assoc_L (++)).
    + rewrite ?length_app; simpl; rewrite ?length_app; simpl; lia.
    + rewrite ?length_app; simpl; rewrite ?length_app; simpl; lia.
  - unfold group; cbn [m_caps cap_lookup Nat.eqb].
    apply (slice_of_split _ _ _
             (pre ++ OPEN_TAG ++ ws ++ a ++ NAME_ATTR ++ key ++ [QUOTE] ++ b ++ [GT]) _
             (CLOSE_TAG ++ le)).
    + by rewrite <- !(assoc_L (++)).
    + rewrite ?length_app; simpl; rewrite ?length_app; simpl; lia.
    + lia.
  - unfold group; cbn [m_caps cap_lookup Nat.eqb].
    apply (slice_of_split _ _ _
             (pre ++ OPEN_TAG ++ ws ++ a ++ NAME_ATTR ++ key ++ [QUOTE] ++ b ++ [GT] ++ g4) _ le).
    + by rewrite <- !(assoc_L (++)).
    + rewrite ?length_app; simpl; rewrite ?length_app; simpl; lia.
    + lia.
  - rewrite H5.
    replace (pre ++ OPEN_TAG ++ ws ++ a ++ NAME_ATTR ++ key ++ [QUOTE] ++ b ++ [GT] ++ g4 ++ CLOSE_TAG ++ le)
      with ((pre ++ OPEN_TAG ++ ws ++ a ++ NAME_ATTR ++ key ++ [QUOTE] ++ b ++ [GT] ++ g4 ++ CLOSE_TAG) ++ le)
      by (by rewrite <- !(assoc_L (++))).
    apply drop_app_length'. rewrite ?length_app; simpl; rewrite ?length_app; simpl; lia.
Qed.


(** ** Running the program *)

Lemma rewrite_lines_map tr lines :
  rewrite_lines tr lines = map (rewrite_line tr) lines.
Proof.
  unfold rewrite_lines.
  enough (forall acc, foldl (fun new_lines line => new_lines ++ [rewrite_line tr line]) acc lines
                      = acc ++ map (rewrite_line tr) lines) as H by apply (H []).
  induction lines as [|l lines IH]; intros acc; simpl.
  - by rewrite app_nil_r.
  - by rewrite IH, <- app_assoc.
Qed.

Lemma sync_file_run d w T C :
  startswith d (cp "values-") = true ->
  w_fs w !! target_file_of d = Some (File T) ->
  w_fs w !! ENGLISH_FILE = Some (File C) ->
  sync_file d w =
    (inr tt, World (<[target_file_of d := File (synced T C)]> (w_fs w))
                   (w_log w ++ sync_events (target_file_of d) (synced T C))).
Proof.
  intros Hd HT HC. unfold sync_file. rewrite Hd. cbn [negb].
  unfold bind, os.exists_, print, emit, load_translations, read_file, write_lines, ret, bind, os.exists_.
  cbn [w_fs w_log]. rewrite HT.
  rewrite (bool_decide_true (is_Some (Some (File T)))) by eauto.
  cbn [negb w_fs w_log]. rewrite HT.
  rewrite (bool_decide_true (is_Some (Some (File T)))) by eauto.
  cbn [negb w_fs w_log]. rewrite HT. cbn [w_fs w_log]. rewrite HC.
  cbn [w_fs w_log]. rewrite HT. unfold synced, sync_events.
  by rewrite <- !app_assoc.
Qed.

Lemma sync_file_skip d w :
  startswith d (cp "values-") = true ->
  w_fs w !! target_file_of d = None ->
  sync_file d w = (inr tt, World (w_fs w) (w_log w ++ [EvExists (target_file_of d)])).
Proof.
  intros Hd HT. unfold sync_file. rewrite Hd. cbn [negb].
  unfold bind, os.exists_, ret. rewrite HT.
  rewrite bool_decide_false; [done|]. by intros [? ?].
Qed.

(** C7: when the English file does not exist, [main] prints the source line
    and the error and returns: the file system is unchanged and the log
    holds no directory listing, no read and no write. *)
Theorem main_missing_english w :
  w_fs w !! ENGLISH_FILE = None ->
  main w = (inr tt,
            World (w_fs w)
                  (w_log w ++ [EvPrint (MsgSource ENGLISH_FILE);
                               EvExists ENGLISH_FILE;
                               EvPrint MsgEnglishNotFound])).
Proof.
  intros H. unfold main, bind, print, emit, os.exists_. cbn [w_fs w_log].
  rewrite H. rewrite bool_decide_false by (by intros [? ?]).
  cbn [negb w_fs w_log]. by rewrite <- !app_assoc.
Qed.

Lemma main_missing_english_witness :
  main (World ∅ []) =
    (inr tt, World ∅ [EvPrint (MsgSource ENGLISH_FILE); EvExists ENGLISH_FILE;
                      EvPrint MsgEnglishNotFound]).
Proof. apply (main_missing_english (World ∅ [])). reflexivity. Defined.

(** C8: a directory whose name starts with [values-] and that holds no
    [strings.xml] is skipped: [sync_file] returns normally after the one
    existence test, with nothing read or written, and the loop of [main]
    goes on with the directories that remain. *)
Theorem sync_file_missing_target d w :
  startswith d (cp "values-") = true ->
  w_fs w !! target_file_of d = None ->
  sync_file d w = (inr tt, World (w_fs w) (w_log w ++ [EvExists (target_file_of d)])) /\
  forall ds, for_each (d :: ds) sync_file w =
             for_each ds sync_file (World (w_fs w) (w_log w ++ [EvExists (target_file_of d)])).
Proof.
  intros Hd HT. pose proof (sync_file_skip d w Hd HT) as Hrun.
  split; [done|]. intros ds. cbn [for_each]. unfold bind at 1. by rewrite Hrun.
Qed.

Lemma sync_file_missing_target_witness :
  sync_file (cp "values-fr") (World ∅ []) =
    (inr tt, World ∅ [EvExists (target_file_of (cp "values-fr"))]).
Proof.
  apply (sync_file_missing_target (cp "values-fr") (World ∅ [])); reflexivity.
Defined.

(** ** The rewritten lines *)

(** C4: on a line that the pattern matches, the rewritten line is the line
    itself with only the text of group 4 replaced: what precedes the match,
    the opening tag up to the name, the key, the rest of the opening tag, the
    closing tag and what follows the match are the same in both. *)
Theorem rewrite_line_frame tr line m :
  search line_pattern line = Some m ->
  let line_start := take (m_start m) line in
  let line_end := drop (m_end m) line in
  let key := group line m 2 in
  let new_value := match tr !! key with
                   | Some localized_value => localized_value
                   | None => TODO_PREFIX ++ group line m 4
                   end in
  group line m 5 = CLOSE_TAG /\
  line = line_start ++ group line m 1 ++ key ++ group line m 3 ++
         group line m 4 ++ CLOSE_TAG ++ line_end /\
  rewrite_line tr line =
         line_start ++ group line m 1 ++ key ++ group line m 3 ++
         new_value ++ CLOSE_TAG ++ line_end.
Proof.
  intros Hs. cbn zeta. unfold rewrite_line. rewrite Hs.
  apply line_match_shape in Hs
    as (ls & ws & a & key & b & g4 & le & Hline & _ & _ & _ & _ & _ & _ & _ &
        -> & -> & -> & -> & -> & -> & ->).
  split; [done|]. split; [by rewrite Hline at 1|].
  by destruct (tr !! key).
Qed.

Lemma rewrite_line_frame_witness :
  let line := cp "  " ++ simple_entry (cp "greeting") (cp "Hello") ++ [LF] in
  rewrite_line ∅ line =
    cp "  " ++ simple_open (cp "greeting") ++ cp "TODO: Hello" ++ CLOSE_TAG ++ [LF].
Proof.
  cbn zeta.
  pose proof (rewrite_line_frame ∅
                (cp "  " ++ simple_entry (cp "greeting") (cp "Hello") ++ [LF])
                (Match 2 40 [(5, (31, 40)); (4, (26, 31)); (3, (24, 26));
                             (2, (16, 24)); (1, (2, 16))])
                eq_refl) as (_ & _ & H).
  rewrite H. reflexivity.
Defined.

Lemma rewrite_line_no_match tr line :
  search line_pattern line = None -> rewrite_line tr line = line.
Proof. intros H. unfold rewrite_line. by rewrite H. Qed.

Lemma demo_world_english C T :
  w_fs (demo_world C T) !! ENGLISH_FILE = Some (File C).
Proof. unfold demo_world. cbn [w_fs]. by rewrite lookup_insert_eq. Qed.

Lemma demo_world_target C T :
  w_fs (demo_world C T) !! target_file_of (cp "values-fr") = Some (File T).
Proof.
  unfold demo_world. cbn [w_fs]. rewrite lookup_insert_ne.
  - by rewrite lookup_singleton_eq.
  - vm_compute. discriminate.
Qed.

(** C3, as the specification states it, fails: the target holds an entry
    [old] that the English file does not have, and after the run the target
    no longer holds it. *)
Lemma orphan_entry_is_dropped :
  let C := simple_entry (cp "greeting") (cp "Hello") ++ [LF] in
  let T := simple_entry (cp "greeting") (cp "Bonjour") ++ [LF] ++
           simple_entry (cp "old") (cp "Ancien") ++ [LF] in
  let T' := simple_entry (cp "greeting") (cp "Bonjour") ++ [LF] in
  collect_translations (universal_newlines T) !! cp "old" = Some (cp "Ancien") /\
  sync_file (cp "values-fr") (demo_world C T) =
    (inr tt, World (<[target_file_of (cp "values-fr") := File T']> (w_fs (demo_world C T)))
                   (sync_events (target_file_of (cp "values-fr")) T')) /\
  collect_translations (universal_newlines T') !! cp "old" = None.
Proof.
  intros C T T'. split; [by vm_compute|]. split; [|by vm_compute].
  rewrite (sync_file_run (cp "values-fr") _ T C eq_refl
             (demo_world_target C T) (demo_world_english C T)).
  assert (synced T C = T') as -> by (vm_compute; reflexivity).
  reflexivity.
Qed.

Lemma rewrite_line_agree tr1 tr2 line :
  (forall m, search line_pattern line = Some m ->
             tr1 !! group line m 2 = tr2 !! group line m 2) ->
  rewrite_line tr1 line = rewrite_line tr2 line.
Proof.
  intros H. unfold rewrite_line.
  destruct (search line_pattern line) as [m|]; [|done].
  by rewrite (H m eq_refl).
Qed.

(** C3, amended: the target is overwritten with the rewritten lines of the
    English file, and what is written is the same for any two former
    contents of the target whose translation tables agree on the keys of the
    English entry lines; an entry of the target under any other key has no
    part in the result. *)
Theorem sync_file_ignores_orphans d w1 w2 T1 T2 C :
  startswith d (cp "values-") = true ->
  w_fs w1 !! target_file_of d = Some (File T1) ->
  w_fs w2 !! target_file_of d = Some (File T2) ->
  w_fs w1 !! ENGLISH_FILE = Some (File C) ->
  w_fs w2 !! ENGLISH_FILE = Some (File C) ->
  (forall line m,
      line ∈ readlines (universal_newlines C) ->
      search line_pattern line = Some m ->
      collect_translations (universal_newlines T1) !! group line m 2 =
      collect_translations (universal_newlines T2) !! group line m 2) ->
  let data := concat (map (rewrite_line (collect_translations (universal_newlines T1)))
                          (readlines (universal_newlines C))) in
  sync_file d w1 =
    (inr tt, World (<[target_file_of d := File data]> (w_fs w1))
                   (w_log w1 ++ sync_events (target_file_of d) data)) /\
  sync_file d w2 =
    (inr tt, World (<[target_file_of d := File data]> (w_fs w2))
                   (w_log w2 ++ sync_events (target_file_of d) data)).
Proof.
  intros Hd HT1 HT2 HC1 HC2 Hagree data.
  rewrite (sync_file_run d w1 T1 C Hd HT1 HC1), (sync_file_run d w2 T2 C Hd HT2 HC2).
  unfold synced. rewrite !rewrite_lines_map. fold data.
  assert (map (rewrite_line (collect_translations (universal_newlines T2)))
              (readlines (universal_newlines C)) =
          map (rewrite_line (collect_translations (universal_newlines T1)))
              (readlines (universal_newlines C))) as ->; [|done].
  apply map_ext_in. intros line Hin. symmetry. apply rewrite_line_agree.
  intros m Hm. apply Hagree; [|done]. by apply list_elem_of_In.
Qed.

Lemma sync_file_ignores_orphans_witness :
  let C := simple_entry (cp "greeting") (cp "Hello") ++ [LF] in
  let T1 := simple_entry (cp "greeting") (cp "Bonjour") ++ [LF] ++
            simple_entry (cp "old") (cp "Ancien") ++ [LF] in
  let T2 := simple_entry (cp "greeting") (cp "Bonjour") ++ [LF] in
  exists data,
    sync_file (cp "values-fr") (demo_world C T1) =
      (inr tt, World (<[target_file_of (cp "values-fr") := File data]> (w_fs (demo_world C T1)))
                     (sync_events (target_file_of (cp "values-fr")) data)) /\
    sync_file (cp "values-fr") (demo_world C T2) =
      (inr tt, World (<[target_file_of (cp "values-fr") := File data]> (w_fs (demo_world C T2)))
                     (sync_events (target_file_of (cp "values-fr")) data)).
Proof.
  intros C T1 T2. eexists.
  apply (sync_file_ignores_orphans (cp "values-fr") (demo_world C T1) (demo_world C T2)
           T1 T2 C eq_refl (demo_world_target C T1) (demo_world_target C T2)
           (demo_world_english C T1) (demo_world_english C T2)).
  intros line m Hin Hm.
  assert (line = C) as ->.
  { change (readlines (universal_newlines C)) with [C] in Hin.
    by apply list_elem_of_singleton in Hin. }
  vm_compute in Hm. injection Hm as <-. vm_compute. reflexivity.
Defined.

(** ** The translation table *)

Lemma collect_fold_other (content : list N) (ms : list match_obj)
    (init : gmap (list N) (list N)) (k : list N) :
  (forall m, m ∈ ms -> group content m 1 <> k) ->
  foldl (fun translations m =>
           <[group content m 1 := group content m 2]> translations) init ms !! k
  = init !! k.
Proof.
  revert init. induction ms as [|m ms IH]; intros init Hne; [done|].
  cbn [foldl]. rewrite IH.
  - apply lookup_insert_ne. apply Hne. left.
  - intros m' Hm'. apply Hne. by right.
Qed.

Lemma collect_translations_last (content : list N) (ms1 : list match_obj) m ms2 :
  finditer translation_pattern content = ms1 ++ m :: ms2 ->
  (forall m', m' ∈ ms2 -> group content m' 1 <> group content m 1) ->
  collect_translations content !! group content m 1 = Some (group content m 2).
Proof.
  intros Hms Hlast. unfold collect_translations. rewrite Hms.
  rewrite foldl_app. cbn [foldl].
  rewrite collect_fold_other by done. apply lookup_insert_eq.
Qed.

Lemma load_translations_run p w content :
  w_fs w !! p = Some (File content) ->
  load_translations p w =
    (inr (collect_translations (universal_newlines content)),
     World (w_fs w) (w_log w ++ [EvExists p; EvRead p])).
Proof.
  intros H. unfold load_translations, bind, os.exists_, read_file, ret.
  cbn [w_fs w_log]. rewrite H.
  rewrite (bool_decide_true (is_Some (Some (File content)))) by eauto.
  cbn [negb w_fs w_log]. rewrite H. by rewrite <- app_assoc.
Qed.

(** C10: when the text of a file holds several entries with the same key,
    the table that [load_translations] returns binds the key to the content
    of the last of them: for a match [m] of the pattern after which no match
    has the same key, the key of [m] is bound to the content of [m],
    whatever was matched before. *)
Theorem load_translations_last_wins p w content (ms1 : list match_obj) m ms2 :
  w_fs w !! p = Some (File content) ->
  let text := universal_newlines content in
  finditer translation_pattern text = ms1 ++ m :: ms2 ->
  (forall m', m' ∈ ms2 -> group text m' 1 <> group text m 1) ->
  exists translations,
    load_translations p w =
      (inr translations, World (w_fs w) (w_log w ++ [EvExists p; EvRead p])) /\
    translations !! group text m 1 = Some (group text m 2).
Proof.
  intros Hp text Hms Hlast. eexists. split; [by apply load_translations_run|].
  by apply (collect_translations_last text ms1 m ms2).
Qed.

Lemma load_translations_last_wins_witness :
  let content := simple_entry (cp "a") (cp "one") ++ [LF] ++
                 simple_entry (cp "a") (cp "two") ++ [LF] in
  let w := World {[ cp "strings.xml" := File content ]} [] in
  exists translations,
    load_translations (cp "strings.xml") w =
      (inr translations,
       World (w_fs w) ([] ++ [EvExists (cp "strings.xml"); EvRead (cp "strings.xml")])) /\
    translations !! cp "a" = Some (cp "two").
Proof.
  intros content w.
  assert (finditer translation_pattern (universal_newlines content) =
          [Match 0 29 [(2, (17, 20)); (1, (14, 15))]] ++
          Match 30 59 [(2, (47, 50)); (1, (44, 45))] :: []) as Hms
    by (vm_compute; reflexivity).
  destruct (load_translations_last_wins (cp "strings.xml") w content _ _ _
              (lookup_singleton_eq _ _) Hms) as (translations & Hrun & Hlook).
  - intros m' Hm'. by apply elem_of_nil in Hm'.
  - exists translations. split; [exact Hrun|].
    change (group (universal_newlines content)
              (Match 30 59 [(2, (47, 50)); (1, (44, 45))]) 1)
      with (cp "a") in Hlook.
    change (group (universal_newlines content)
              (Match 30 59 [(2, (47, 50)); (1, (44, 45))]) 2)
      with (cp "two") in Hlook.
    exact Hlook.
Defined.

(** ** A lazy repetition stops at the first place where the rest matches *)

Lemma rep_lazy_first {A} cs s pos (k : list N -> nat -> option A) x :
  rep_lazy cs 0 s pos k = Some x ->
  exists l s', s = l ++ s' /\ all_in cs l /\
               k s' (pos + length l) = Some x /\
               forall i, i < length l -> k (drop i s) (pos + i) = None.
Proof.
  revert pos. induction s as [|c s IH]; intros pos; simpl.
  - destruct (k [] pos) eqn:Hk; [|discriminate]. intros [= ->].
    exists [], []. rewrite Nat.add_0_r. split_and!; auto.
    + constructor.
    + simpl. lia.
  - destruct (k (c :: s) pos) eqn:Hk.
    + intros [= ->]. exists [], (c :: s). rewrite Nat.add_0_r. split_and!; auto.
      * constructor.
      * simpl. lia.
    + destruct (cset_mem cs c) eqn:Hc; [|discriminate].
      intros H. apply IH in H as (l & s' & -> & Hl & Hk' & Hmin).
      exists (c :: l), s'. simpl. split_and!; auto.
      * by constructor.
      * by rewrite <- Hk'; f_equal; lia.
      * intros [|i] Hi; simpl.
        -- by rewrite Nat.add_0_r.
        -- replace (pos + S i) with (S pos + i) by lia. apply Hmin. lia.
Qed.

Lemma rmatch_cat_sound {A} r1 r2 s pos caps
    (k : list N -> nat -> captures -> option A) x :
  rmatch (RCat r1 r2) s pos caps k = Some x ->
  exists s1 p1 c1, matches r1 s pos caps s1 p1 c1 /\
                   rmatch r2 s1 p1 c1 k = Some x.
Proof. cbn [rmatch]. apply rmatch_sound. Qed.

(** ** [str.find] *)

Lemma find_first sub (s : list N) n :
  (forall i, i < n -> strip_prefix sub (drop i s) = None) ->
  is_Some (strip_prefix sub (drop n s)) ->
  n <= length s ->
  find sub s = Some n.
Proof.
  revert s. induction n as [|n IH]; intros s Hbefore Hat Hlen.
  - rewrite drop_0 in Hat. destruct Hat as [t Ht].
    destruct s; simpl; simpl in Ht; by rewrite Ht.
  - destruct s as [|c s]; [simpl in Hlen; lia|].
    pose proof (Hbefore 0 ltac:(lia)) as H0. rewrite drop_0 in H0.
    cbn [find]. rewrite H0. rewrite (IH s); [done| |done|simpl in Hlen; lia].
    intros i Hi. apply (Hbefore (S i)). lia.
Qed.

(** ** Lines *)

Lemma readlines_acc_concat s cur :
  concat (readlines_acc s cur) = rev cur ++ s.
Proof.
  revert cur. induction s as [|c s IH]; intros cur; cbn [readlines_acc].
  - destruct cur; [done|]. cbn [concat]. by rewrite !app_nil_r.
  - destruct (N.eqb c LF).
    + cbn [concat]. rewrite IH. cbn [rev app]. by rewrite <- app_assoc.
    + rewrite IH. cbn [rev]. by rewrite <- app_assoc.
Qed.

(** [readlines] only cuts: the lines put end to end are the text that was
    read. *)
Theorem readlines_concat s : concat (readlines s) = s.
Proof. apply readlines_acc_concat. Qed.

Lemma elem_of_rev' (x : N) l : x ∈ rev l <-> x ∈ l.
Proof. rewrite !list_elem_of_In. symmetry. apply in_rev. Qed.

Lemma readlines_acc_line s cur l :
  LF ∉ cur -> l ∈ readlines_acc s cur ->
  exists body, (LF ∉ body) /\ (l = body ++ [LF] \/ l = body /\ body <> []).
Proof.
  revert cur. induction s as [|c s IH]; intros cur Hcur; cbn [readlines_acc].
  - destruct cur as [|c cur]; [by intros ?%elem_of_nil|].
    intros ->%list_elem_of_singleton. exists (rev (c :: cur)). split.
    + by rewrite elem_of_rev'.
    + right. split; [done|]. cbn [rev]. by destruct (rev cur).
  - destruct (N.eqb_spec c LF) as [->|Hc].
    + intros [->|Hl]%elem_of_cons.
      * exists (rev cur). split; [by rewrite elem_of_rev'|]. by left.
      * apply (IH []); [by intros ?%elem_of_nil|done].
    + apply IH. intros [?|?]%elem_of_cons; congruence.
Qed.

(** Every line that [readlines] returns is non-empty and holds a line feed
    only as its last character. *)
Theorem readlines_line s l :
  l ∈ readlines s ->
  exists body, (LF ∉ body) /\ (l = body ++ [LF] \/ l = body /\ body <> []).
Proof. apply readlines_acc_line. by intros ?%elem_of_nil. Qed.

Lemma readlines_line_witness :
  exists body, (LF ∉ body) /\
    (cp "ab" ++ [LF] = body ++ [LF] \/ cp "ab" ++ [LF] = body /\ body <> []).
Proof.
  apply (readlines_line (cp "ab" ++ [LF] ++ cp "c")). vm_compute. left.
Defined.

(** ** Newlines *)

Lemma universal_newlines_elem n : forall s x,
  length s <= n -> x ∈ universal_newlines s -> x = LF \/ x ∈ s /\ x <> CR.
Proof.
  induction n as [|n IH]; intros [|c s] x Hn; cbn [universal_newlines];
    try (by intros ?%elem_of_nil); [simpl in Hn; lia|].
  simpl in Hn. destruct (N.eqb_spec c CR) as [->|Hc].
  - destruct s as [|d s].
    + intros ->%list_elem_of_singleton. by left.
    + destruct (N.eqb d LF).
      * intros [->|Hx]%elem_of_cons; [by left|].
        apply IH in Hx as [?|[? ?]]; [by left| |simpl in Hn; lia].
        right. split; [|done]. by do 2 right.
      * intros [->|Hx]%elem_of_cons; [by left|].
        apply IH in Hx as [?|[? ?]]; [by left| |lia].
        right. split; [|done]. by right.
  - intros [->|Hx]%elem_of_cons.
    + right. split; [left|done].
    + apply IH in Hx as [?|[? ?]]; [by left| |lia].
      right. split; [|done]. by right.
Qed.

Lemma universal_newlines_no_cr s : CR ∉ universal_newlines s.
Proof.
  intros H. apply (universal_newlines_elem (length s)) in H as [?|[_ ?]]; done.
Qed.


(** ** The table holds pieces of the text *)

Lemma collect_fold_inv (content : list N) (ms : list match_obj)
    (init : gmap (list N) (list N)) (k v : list N) :
  foldl (fun translations m =>
           <[group content m 1 := group content m 2]> translations) init ms !! k
  = Some v ->
  init !! k = Some v \/
  exists m, m ∈ ms /\ group content m 1 = k /\ group content m 2 = v.
Proof.
  revert init. induction ms as [|m ms IH]; intros init; cbn [foldl]; [by left|].
  intros [H|(m' & Hm' & Hk & Hv)]%IH.
  - destruct (decide (group content m 1 = k)) as [Hk|Hk].
    + rewrite Hk, lookup_insert_eq in H. injection H as <-.
      right. exists m. split; [left|done].
    + rewrite lookup_insert_ne in H by done. by left.
  - right. exists m'. split; [by right|done].
Qed.

Lemma collect_translations_inv content k v :
  collect_translations content !! k = Some v ->
  exists m, m ∈ finditer translation_pattern content /\
            group content m 1 = k /\ group content m 2 = v.
Proof.
  unfold collect_translations. intros [H|H]%collect_fold_inv; [|done].
  by rewrite lookup_empty in H.
Qed.

Lemma elem_of_slice (s : list N) a b x : x ∈ slice s a b -> x ∈ s.
Proof.
  unfold slice. intros H.
  rewrite <- (take_drop a s). apply elem_of_app. right.
  rewrite <- (take_drop (b - a) (drop a s)). apply elem_of_app. by left.
Qed.

(** ** The lines of a text, stated without [readlines] *)

Lemma readlines_acc_body body rest cur :
  LF ∉ body ->
  readlines_acc (body ++ LF :: rest) cur =
    (rev cur ++ body ++ [LF]) :: readlines_acc rest [].
Proof.
  revert cur. induction body as [|c body IH]; intros cur Hb; cbn [app readlines_acc].
  - change (N.eqb LF LF) with true. cbv iota. by cbn [rev].
  - apply not_elem_of_cons in Hb as [Hc Hb].
    destruct (N.eqb_spec c LF) as [->|_]; [done|].
    rewrite IH by done. cbn [rev]. by rewrite <- app_assoc.
Qed.

Lemma readlines_acc_tail tail cur :
  LF ∉ tail ->
  readlines_acc tail cur =
    match rev cur ++ tail with [] => [] | l => [l] end.
Proof.
  revert cur. induction tail as [|c tail IH]; intros cur Ht; cbn [readlines_acc].
  - rewrite app_nil_r. destruct cur as [|c cur]; [done|].
    cbn [rev]. by destruct (rev cur).
  - apply not_elem_of_cons in Ht as [Hc Ht].
    destruct (N.eqb_spec c LF) as [->|_]; [done|].
    rewrite IH by done. cbn [rev]. by rewrite <- app_assoc.
Qed.

Lemma readlines_lines_of bodies tail :
  Forall (fun body => LF ∉ body) bodies -> LF ∉ tail ->
  readlines (concat (lines_of bodies tail)) = lines_of bodies tail.
Proof.
  intros Hb Ht. unfold readlines, lines_of.
  induction Hb as [|body bodies Hbody _ IH]; cbn [map app concat].
  - rewrite readlines_acc_tail.
    + cbn [rev app]. destruct tail; [done|]. cbn [concat]. by rewrite app_nil_r.
    + destruct tail; [done|]. cbn [concat]. by rewrite app_nil_r.
  - rewrite <- app_assoc. cbn [app]. rewrite readlines_acc_body by done.
    cbn [rev app]. by rewrite IH.
Qed.

(** ** A rewritten line is a line *)

Lemma snoc_eq_app_snoc (body pre le : list N) (c : N) :
  body ++ [LF] = (pre ++ [c]) ++ le -> c <> LF ->
  exists le', le = le' ++ [LF] /\ body = (pre ++ [c]) ++ le'.
Proof.
  intros H Hc. destruct le as [|x le0 _] using rev_ind.
  - rewrite app_nil_r in H. apply app_inj_tail in H as [_ ?]. congruence.
  - rewrite app_assoc in H. apply app_inj_tail in H as [-> <-]. eauto.
Qed.

Lemma all_in_dot_no_lf g : all_in (CDot false) g -> LF ∉ g.
Proof.
  intros H Hin. unfold all_in in H. rewrite Forall_forall in H.
  apply H in Hin. by vm_compute in Hin.
Qed.

Lemma rewrite_line_keeps_line tr body eol :
  LF ∉ body -> eol = [] \/ eol = [LF] ->
  (forall m v, search line_pattern (body ++ eol) = Some m ->
               tr !! group (body ++ eol) m 2 = Some v -> LF ∉ v) ->
  exists body', (LF ∉ body') /\ rewrite_line tr (body ++ eol) = body' ++ eol /\
                (body <> [] -> body' <> []).
Proof.
  intros Hbody Heol Hv. unfold rewrite_line.
  destruct (search line_pattern (body ++ eol)) as [m|] eqn:Hs; [|by exists body].
  pose proof (fun v => Hv m v eq_refl) as Hv'. clear Hv.
  apply line_match_shape in Hs
    as (ls & ws & a & key & b & g4 & le & Hline & _ & _ & _ & _ & _ & _ & Hg4 &
        -> & -> & Hk & -> & -> & -> & ->).
  rewrite Hk in Hv'. apply all_in_dot_no_lf in Hg4.
  assert (exists le', le = le' ++ eol /\
            body = ls ++ (OPEN_TAG ++ ws ++ a ++ NAME_ATTR) ++ key ++
                   ([QUOTE] ++ b ++ [GT]) ++ g4 ++ CLOSE_TAG ++ le')
    as (le' & -> & Hb).
  { destruct Heol as [-> | ->].
    - exists le. rewrite !app_nil_r in *. done.
    - pose (pre := ls ++ (OPEN_TAG ++ ws ++ a ++ NAME_ATTR) ++ key ++
                   ([QUOTE] ++ b ++ [GT]) ++ g4 ++ cp "</string").
      assert (body ++ [LF] = (pre ++ [GT]) ++ le) as H.
      { rewrite Hline. unfold pre. rewrite <- !(assoc_L (++)). reflexivity. }
      apply snoc_eq_app_snoc in H as (le' & -> & ->); [|done].
      exists le'. split; [done|]. unfold pre. rewrite <- !(assoc_L (++)). reflexivity. }
  subst body.
  rewrite !not_elem_of_app in Hbody. destruct_and!.
  assert (LF ∉ TODO_PREFIX) as Htodo
    by (intros Hin%list_elem_of_In; cbv in Hin; intuition discriminate).
  cbv zeta. rewrite !Hk.
  destruct (tr !! key) as [v|] eqn:Htr.
  - eexists (ls ++ (OPEN_TAG ++ ws ++ a ++ NAME_ATTR) ++ key ++
             ([QUOTE] ++ b ++ [GT]) ++ v ++ CLOSE_TAG ++ le').
    split_and!.
    + rewrite !not_elem_of_app. split_and!; eauto.
    + by rewrite <- !(assoc_L (++)).
    + intros _ Hnil. apply (f_equal length) in Hnil.
      rewrite ?length_app in Hnil; simpl in Hnil; rewrite ?length_app in Hnil;
        simpl in Hnil; lia.
  - eexists (ls ++ (OPEN_TAG ++ ws ++ a ++ NAME_ATTR) ++ key ++
             ([QUOTE] ++ b ++ [GT]) ++ (TODO_PREFIX ++ g4) ++ CLOSE_TAG ++ le').
    split_and!.
    + rewrite !not_elem_of_app. split_and!; eauto.
    + by rewrite <- !(assoc_L (++)).
    + intros _ Hnil. apply (f_equal length) in Hnil.
      rewrite ?length_app in Hnil; simpl in Hnil; rewrite ?length_app in Hnil;
        simpl in Hnil; lia.
Qed.

Lemma rewrite_line_split tr line m :
  search line_pattern line = Some m ->
  line = take (m_start m) line ++ group line m 1 ++ group line m 2 ++
         group line m 3 ++ group line m 4 ++ CLOSE_TAG ++ drop (m_end m) line /\
  rewrite_line tr line =
    take (m_start m) line ++ group line m 1 ++ group line m 2 ++ group line m 3 ++
    match tr !! group line m 2 with
    | Some localized_value => localized_value
    | None => TODO_PREFIX ++ group line m 4
    end ++ CLOSE_TAG ++ drop (m_end m) line.
Proof.
  intros Hs. unfold rewrite_line. rewrite Hs.
  apply line_match_shape in Hs
    as (ls & ws & a & key & b & g4 & le & Hline & _ & _ & _ & _ & _ & _ & _ &
        -> & -> & -> & -> & -> & -> & ->).
  split; [by rewrite Hline at 1|]. by destruct (tr !! key).
Qed.

Lemma rewrite_lines_of tr bodies tail :
  Forall (fun body => LF ∉ body) bodies -> LF ∉ tail ->
  (forall line m v, line ∈ lines_of bodies tail ->
                    search line_pattern line = Some m ->
                    tr !! group line m 2 = Some v -> LF ∉ v) ->
  exists bodies' tail',
    map (rewrite_line tr) (lines_of bodies tail) = lines_of bodies' tail' /\
    Forall (fun body => LF ∉ body) bodies' /\ (LF ∉ tail') /\
    length bodies' = length bodies /\ (tail' = [] <-> tail = []).
Proof.
  intros Hb Ht. induction Hb as [|body bodies Hbody _ IH]; intros Hv.
  - destruct tail as [|c tail].
    + exists [], []. by split_and!.
    + destruct (rewrite_line_keeps_line tr (c :: tail) [] Ht (or_introl eq_refl))
        as (body' & Hb' & Hr & Hne).
      { intros m v Hs. rewrite app_nil_r in *. apply (Hv _ m v); [|done]. left. }
      rewrite !app_nil_r in Hr. specialize (Hne ltac:(done)).
      exists [], body'. split_and!; try done.
      unfold lines_of. cbn [map app]. rewrite Hr. by destruct body'.
  - destruct IH as (bodies' & tail' & Hmap & Hb' & Ht' & Hlen & Htail).
    { intros line m v Hin. apply Hv. unfold lines_of. cbn [map app]. by right. }
    destruct (rewrite_line_keeps_line tr body [LF] Hbody (or_intror eq_refl))
      as (body' & Hbody' & Hr & _).
    { intros m v. apply Hv. unfold lines_of. cbn [map app]. left. }
    exists (body' :: bodies'), tail'. split_and!; try done.
    + unfold lines_of in *. cbn [map app]. by rewrite Hr, Hmap.
    + by constructor.
    + cbn [length]. by rewrite Hlen.
Qed.

Lemma synced_lines_of T C bodies tail :
  Forall (fun body => LF ∉ body) bodies -> LF ∉ tail ->
  universal_newlines C = concat (lines_of bodies tail) ->
  synced T C = concat (map (rewrite_line (collect_translations (universal_newlines T)))
                           (lines_of bodies tail)).
Proof.
  intros Hb Ht HC. unfold synced.
  by rewrite HC, readlines_lines_of, rewrite_lines_map.
Qed.

(** C1, as the specification states it, fails on two counts.  The English
    file is read with newline translation, so a line that is no entry and
    ends in CR LF is written with a line feed only; and on a line that holds
    two entries only the first one is given the marker. *)
Lemma empty_target_second_entry_unmarked :
  let C := cp "<!-- c -->" ++ [CR; LF] ++
           simple_entry (cp "a") (cp "A") ++ simple_entry (cp "b") (cp "B") ++ [LF] in
  let out := cp "<!-- c -->" ++ [LF] ++
             simple_entry (cp "a") (cp "TODO: A") ++ simple_entry (cp "b") (cp "B") ++ [LF] in
  let claimed := cp "<!-- c -->" ++ [CR; LF] ++
                 simple_entry (cp "a") (cp "TODO: A") ++
                 simple_entry (cp "b") (cp "TODO: B") ++ [LF] in
  sync_file (cp "values-fr") (demo_world C []) =
    (inr tt, World (<[target_file_of (cp "values-fr") := File out]> (w_fs (demo_world C [])))
                   (sync_events (target_file_of (cp "values-fr")) out)) /\
  out <> claimed.
Proof.
  intros C out claimed. split; [|by vm_compute].
  rewrite (sync_file_run (cp "values-fr") _ [] C eq_refl
             (demo_world_target C []) (demo_world_english C [])).
  assert (synced [] C = out) as -> by (vm_compute; reflexivity).
  reflexivity.
Qed.

(** C1, amended: let the English file, after newline translation, be cut
    into its lines (each body followed by a line feed, and what follows the
    last line feed), and let the table of the target be empty.  Then
    [sync_file] writes, for each of these lines in order, either the line
    itself, when the pattern finds no entry in it, or the line with [TODO: ]
    put before the content of the leftmost entry it finds, the rest of the
    line being the same. *)
Theorem sync_file_empty_table d w T C bodies tail :
  startswith d (cp "values-") = true ->
  w_fs w !! target_file_of d = Some (File T) ->
  collect_translations (universal_newlines T) = ∅ ->
  w_fs w !! ENGLISH_FILE = Some (File C) ->
  Forall (fun body => LF ∉ body) bodies -> LF ∉ tail ->
  universal_newlines C = concat (lines_of bodies tail) ->
  exists new_lines,
    sync_file d w =
      (inr tt, World (<[target_file_of d := File (concat new_lines)]> (w_fs w))
                     (w_log w ++ sync_events (target_file_of d) (concat new_lines))) /\
    Forall2 (fun line new_line =>
               match search line_pattern line with
               | None => new_line = line
               | Some m =>
                   let before := take (m_start m) line ++ group line m 1 ++
                                 group line m 2 ++ group line m 3 in
                   let after := CLOSE_TAG ++ drop (m_end m) line in
                   line = before ++ group line m 4 ++ after /\
                   new_line = before ++ (TODO_PREFIX ++ group line m 4) ++ after
               end)
            (lines_of bodies tail) new_lines.
Proof.
  intros Hd HT Htable HC Hb Ht Hlines.
  exists (map (rewrite_line ∅) (lines_of bodies tail)). split.
  - rewrite (sync_file_run d w T C Hd HT HC).
    by rewrite (synced_lines_of T C bodies tail Hb Ht Hlines), Htable.
  - apply Forall2_fmap_r, Forall_Forall2_diag, Forall_forall. intros line _.
    destruct (search line_pattern line) as [m|] eqn:Hs.
    + destruct (rewrite_line_split ∅ line m Hs) as (Hline & Hnew).
      rewrite lookup_empty in Hnew. cbv zeta. split.
      * rewrite Hline at 1. by rewrite <- !(assoc_L (++)).
      * rewrite Hnew. by rewrite <- !(assoc_L (++)).
    + by apply rewrite_line_no_match.
Qed.

Lemma sync_file_empty_table_witness :
  let C := cp "<!-- c -->" ++ [CR; LF] ++
           simple_entry (cp "greeting") (cp "Hello") ++ [LF] in
  exists new_lines,
    sync_file (cp "values-fr") (demo_world C []) =
      (inr tt,
       World (<[target_file_of (cp "values-fr") := File (concat new_lines)]>
                (w_fs (demo_world C [])))
             ([] ++ sync_events (target_file_of (cp "values-fr")) (concat new_lines))) /\
    new_lines = [ cp "<!-- c -->" ++ [LF];
                  simple_entry (cp "greeting") (cp "TODO: Hello") ++ [LF] ].
Proof.
  intros C.
  destruct (sync_file_empty_table (cp "values-fr") (demo_world C []) [] C
              [cp "<!-- c -->"; simple_entry (cp "greeting") (cp "Hello")] [])
    as (new_lines & Hrun & Hlines).
  - reflexivity.
  - apply demo_world_target.
  - reflexivity.
  - apply demo_world_english.
  - repeat constructor; intros Hin%list_elem_of_In; cbv in Hin; intuition discriminate.
  - by intros ?%elem_of_nil.
  - vm_compute. reflexivity.
  - exists new_lines. split; [exact Hrun|].
    apply Forall2_cons_inv_l in Hlines as (l1 & rest & H1 & Hlines & ->).
    apply Forall2_cons_inv_l in Hlines as (l2 & rest' & H2 & Hlines & ->).
    apply Forall2_nil_inv_l in Hlines as ->.
    vm_compute in H1. vm_compute in H2. destruct H2 as [_ H2].
    rewrite H1, H2. vm_compute. reflexivity.
Defined.

(** C9, as the specification states it, fails: the pattern of
    [load_translations] is compiled with [DOTALL], so a translation can hold
    a line feed, and it is written as it is.  Here the English file has one
    line and the file written has two. *)
Lemma multiline_translation_adds_a_line :
  let C := simple_entry (cp "k") (cp "K") ++ [LF] in
  let T := simple_entry (cp "k") (cp "un" ++ [LF] ++ cp "deux") ++ [LF] in
  sync_file (cp "values-fr") (demo_world C T) =
    (inr tt, World (<[target_file_of (cp "values-fr") := File T]> (w_fs (demo_world C T)))
                   (sync_events (target_file_of (cp "values-fr")) T)) /\
  universal_newlines C = concat (lines_of [simple_entry (cp "k") (cp "K")] []) /\
  T = concat (lines_of [simple_open (cp "k") ++ cp "un"; cp "deux" ++ CLOSE_TAG] []) /\
  length (readlines (universal_newlines C)) = 1 /\
  length (readlines T) = 2.
Proof.
  intros C T. split_and!; vm_compute; reflexivity.
Qed.

(** C9, amended: let the English file, after newline translation, be cut
    into its lines.  What [sync_file] writes is the concatenation, in the
    order of the English file, of one piece per line, the piece of a line
    being [rewrite_line] of it under the table of the target; the former
    target enters only through that table.  When no translation that is
    used holds a line feed, each piece is itself one line, so that the file
    written has exactly one line per line of the English file, the last one
    ended by a line feed exactly when that of the English file is. *)
Theorem sync_file_line_for_line d w T C bodies tail :
  startswith d (cp "values-") = true ->
  w_fs w !! target_file_of d = Some (File T) ->
  w_fs w !! ENGLISH_FILE = Some (File C) ->
  Forall (fun body => LF ∉ body) bodies -> LF ∉ tail ->
  universal_newlines C = concat (lines_of bodies tail) ->
  let table := collect_translations (universal_newlines T) in
  let new_lines := map (rewrite_line table) (lines_of bodies tail) in
  sync_file d w =
    (inr tt, World (<[target_file_of d := File (concat new_lines)]> (w_fs w))
                   (w_log w ++ sync_events (target_file_of d) (concat new_lines))) /\
  (forall T', collect_translations (universal_newlines T') = table ->
              synced T' C = concat new_lines) /\
  ((forall line m v, line ∈ lines_of bodies tail ->
                     search line_pattern line = Some m ->
                     table !! group line m 2 = Some v -> LF ∉ v) ->
   exists bodies' tail',
     new_lines = lines_of bodies' tail' /\
     Forall (fun body => LF ∉ body) bodies' /\ (LF ∉ tail') /\
     length bodies' = length bodies /\ (tail' = [] <-> tail = [])).
Proof.
  intros Hd HT HC Hb Ht Hlines table new_lines. split_and!.
  - rewrite (sync_file_run d w T C Hd HT HC).
    by rewrite (synced_lines_of T C bodies tail Hb Ht Hlines).
  - intros T' HT'. rewrite (synced_lines_of T' C bodies tail Hb Ht Hlines).
    by rewrite HT'.
  - intros Hv. by apply rewrite_lines_of.
Qed.

Lemma sync_file_line_for_line_witness :
  let C := cp "<resources>" ++ [CR; LF] ++
           simple_entry (cp "greeting") (cp "Hello") ++ [LF] in
  let T := simple_entry (cp "greeting") (cp "Bonjour") in
  let out := cp "<resources>" ++ [LF] ++
             simple_entry (cp "greeting") (cp "Bonjour") ++ [LF] in
  sync_file (cp "values-fr") (demo_world C T) =
    (inr tt, World (<[target_file_of (cp "values-fr") := File out]> (w_fs (demo_world C T)))
                   ([] ++ sync_events (target_file_of (cp "values-fr")) out)).
Proof.
  intros C T out.
  destruct (sync_file_line_for_line (cp "values-fr") (demo_world C T) T C
              [cp "<resources>"; simple_entry (cp "greeting") (cp "Hello")] [])
    as (Hrun & _).
  - reflexivity.
  - apply demo_world_target.
  - apply demo_world_english.
  - repeat constructor; intros Hin%list_elem_of_In; cbv in Hin; intuition discriminate.
  - by intros ?%elem_of_nil.
  - vm_compute. reflexivity.
  - rewrite Hrun.
    assert (concat (map (rewrite_line (collect_translations (universal_newlines T)))
                        (lines_of [cp "<resources>";
                                   simple_entry (cp "greeting") (cp "Hello")] []))
            = out) as -> by (vm_compute; reflexivity).
    reflexivity.
Defined.

(** ** The greeting *)

Lemma rewrite_greeting tr v eol :
  eol = [] \/ eol = [LF] ->
  tr !! cp "greeting" = Some v ->
  rewrite_line tr (simple_entry (cp "greeting") (cp "Hello") ++ eol) =
    simple_entry (cp "greeting") v ++ eol.
Proof.
  intros Heol Htr.
  destruct (search line_pattern (simple_entry (cp "greeting") (cp "Hello") ++ eol))
    as [m|] eqn:Hs; [|by destruct Heol as [-> | ->]; vm_compute in Hs].
  destruct (rewrite_line_split tr _ m Hs) as (_ & ->).
  destruct Heol as [-> | ->]; vm_compute in Hs; injection Hs as <-.
  - change (group _ _ 2) with (cp "greeting"). rewrite Htr.
    unfold simple_entry. rewrite <- !(assoc_L (++)). reflexivity.
  - change (group _ _ 2) with (cp "greeting"). rewrite Htr.
    unfold simple_entry. rewrite <- !(assoc_L (++)). reflexivity.
Qed.

(** C6, as the specification states it, fails: the target holds the line
    with [Bonjour] and no line terminator, the English file holds the line
    with [Hello] ended by a line feed, and the run leaves the target with a
    line feed that it did not have. *)
Lemma greeting_target_gains_newline :
  let C := simple_entry (cp "greeting") (cp "Hello") ++ [LF] in
  let T := simple_entry (cp "greeting") (cp "Bonjour") in
  sync_file (cp "values-fr") (demo_world C T) =
    (inr tt, World (<[target_file_of (cp "values-fr") := File (T ++ [LF])]>
                      (w_fs (demo_world C T)))
                   (sync_events (target_file_of (cp "values-fr")) (T ++ [LF]))) /\
  T ++ [LF] <> T.
Proof.
  intros C T. split; [|by vm_compute].
  rewrite (sync_file_run (cp "values-fr") _ T C eq_refl
             (demo_world_target C T) (demo_world_english C T)).
  assert (synced T C = T ++ [LF]) as -> by (vm_compute; reflexivity).
  reflexivity.
Qed.

(** C6, amended: when the English file is the one line
    [<string name=QgreetingQ>Hello</string>], with or without a line
    terminator, and the table of the target binds [greeting] to [Bonjour],
    [sync_file] overwrites the target with the one line
    [<string name=QgreetingQ>Bonjour</string>], ended by a line feed when the
    English line has a terminator; the file system after the run is the one
    before exactly when the target was that text already. *)
Theorem sync_file_greeting d w T eol :
  startswith d (cp "values-") = true ->
  eol = [] \/ eol = [LF] \/ eol = [CR; LF] \/ eol = [CR] ->
  w_fs w !! ENGLISH_FILE =
    Some (File (simple_entry (cp "greeting") (cp "Hello") ++ eol)) ->
  w_fs w !! target_file_of d = Some (File T) ->
  collect_translations (universal_newlines T) !! cp "greeting" = Some (cp "Bonjour") ->
  let out := simple_entry (cp "greeting") (cp "Bonjour") ++
             match eol with [] => [] | _ => [LF] end in
  sync_file d w =
    (inr tt, World (<[target_file_of d := File out]> (w_fs w))
                   (w_log w ++ sync_events (target_file_of d) out)) /\
  (<[target_file_of d := File out]> (w_fs w) = w_fs w <-> T = out).
Proof.
  intros Hd Heol HC HT Htr out. split.
  - rewrite (sync_file_run d w _ _ Hd HT HC).
    assert (synced T (simple_entry (cp "greeting") (cp "Hello") ++ eol) = out) as ->;
      [|done].
    unfold synced, out. rewrite rewrite_lines_map.
    destruct Heol as [-> | [-> | [-> | ->]]].
    + change (readlines _) with [simple_entry (cp "greeting") (cp "Hello") ++ []].
      cbn [map concat]. rewrite (rewrite_greeting _ _ [] (or_introl eq_refl) Htr).
      by rewrite !app_nil_r.
    + change (readlines _) with [simple_entry (cp "greeting") (cp "Hello") ++ [LF]].
      cbn [map concat]. rewrite (rewrite_greeting _ _ [LF] (or_intror eq_refl) Htr).
      by rewrite !app_nil_r.
    + change (readlines _) with [simple_entry (cp "greeting") (cp "Hello") ++ [LF]].
      cbn [map concat]. rewrite (rewrite_greeting _ _ [LF] (or_intror eq_refl) Htr).
      by rewrite !app_nil_r.
    + change (readlines _) with [simple_entry (cp "greeting") (cp "Hello") ++ [LF]].
      cbn [map concat]. rewrite (rewrite_greeting _ _ [LF] (or_intror eq_refl) Htr).
      by rewrite !app_nil_r.
  - split.
    + intros H. apply (f_equal (fun fs => fs !! target_file_of d)) in H.
      rewrite lookup_insert_eq, HT in H. by injection H as <-.
    + intros ->. by apply insert_id.
Qed.

Lemma sync_file_greeting_witness :
  let C := simple_entry (cp "greeting") (cp "Hello") ++ [CR; LF] in
  let T := cp "<resources>" ++ [LF] ++
           simple_entry (cp "greeting") (cp "Bonjour") ++ [LF] ++
           cp "</resources>" ++ [LF] in
  let out := simple_entry (cp "greeting") (cp "Bonjour") ++ [LF] in
  sync_file (cp "values-fr") (demo_world C T) =
    (inr tt, World (<[target_file_of (cp "values-fr") := File out]> (w_fs (demo_world C T)))
                   ([] ++ sync_events (target_file_of (cp "values-fr")) out)).
Proof.
  intros C T out.
  apply (sync_file_greeting (cp "values-fr") (demo_world C T) T [CR; LF]).
  - reflexivity.
  - right. right. left. reflexivity.
  - apply demo_world_english.
  - apply demo_world_target.
  - vm_compute. reflexivity.
Defined.

(** ** Where the program writes *)



Lemma written_app l1 l2 : written (l1 ++ l2) = written l1 ++ written l2.
Proof. apply omap_app. Qed.




(** ** Failures *)

Lemma sync_file_english_unreadable d w T e :
  startswith d (cp "values-") = true ->
  w_fs w !! target_file_of d = Some (File T) ->
  (read_file ENGLISH_FILE (World (w_fs w) [])).1 = inl e ->
  sync_file d w =
    (inl e,
     World (w_fs w)
           (w_log w ++ [EvExists (target_file_of d);
                        EvPrint (MsgSyncing (target_file_of d));
                        EvExists (target_file_of d);
                        EvRead (target_file_of d);
                        EvRead ENGLISH_FILE])).
Proof.
  intros Hd HT. unfold sync_file. rewrite Hd. cbn [negb].
  unfold bind, os.exists_, print, emit, load_translations, read_file,
    write_lines, ret, bind, os.exists_.
  cbn [w_fs w_log]. rewrite HT.
  rewrite (bool_decide_true (is_Some (Some (File T)))) by eauto.
  cbn [negb w_fs w_log]. rewrite HT.
  rewrite (bool_decide_true (is_Some (Some (File T)))) by eauto.
  cbn [negb w_fs w_log]. rewrite HT. cbn [w_fs w_log].
  destruct (w_fs w !! ENGLISH_FILE) as [[C|es]|]; cbn [fst]; intros [= <-];
    by rewrite <- !app_assoc.
Qed.

(** When the English file is missing at the time [sync_file] opens it, the
    call raises [FileNotFoundError] for that path after the target has been
    read: the target is not opened for writing and the file system is as it
    was. *)
Theorem sync_file_missing_english d w T :
  startswith d (cp "values-") = true ->
  w_fs w !! target_file_of d = Some (File T) ->
  w_fs w !! ENGLISH_FILE = None ->
  sync_file d w =
    (inl (FileNotFoundError ENGLISH_FILE),
     World (w_fs w)
           (w_log w ++ [EvExists (target_file_of d);
                        EvPrint (MsgSyncing (target_file_of d));
                        EvExists (target_file_of d);
                        EvRead (target_file_of d);
                        EvRead ENGLISH_FILE])).
Proof.
  intros Hd HT HC. apply (sync_file_english_unreadable d w T); [done..|].
  unfold read_file. cbn [w_fs]. by rewrite HC.
Qed.

Lemma sync_file_missing_english_witness :
  let w := World {[ target_file_of (cp "values-fr") := File [] ]} [] in
  (sync_file (cp "values-fr") w).1 = inl (FileNotFoundError ENGLISH_FILE) /\
  w_fs (sync_file (cp "values-fr") w).2 = w_fs w.
Proof.
  intros w.
  rewrite (sync_file_missing_english (cp "values-fr") w []); [done|reflexivity|..].
  - apply lookup_singleton_eq.
  - apply lookup_singleton_ne. vm_compute. discriminate.
Defined.

(** When the path of the target file is a directory, [os.path.exists] holds
    of it and [load_translations] raises [IsADirectoryError] when it opens
    it; nothing is written, and a loop over directories stops there: the
    directories that follow are not processed. *)
Theorem sync_file_target_is_directory d w es :
  startswith d (cp "values-") = true ->
  w_fs w !! target_file_of d = Some (Dir es) ->
  let w' := World (w_fs w)
                  (w_log w ++ [EvExists (target_file_of d);
                               EvPrint (MsgSyncing (target_file_of d));
                               EvExists (target_file_of d);
                               EvRead (target_file_of d)]) in
  sync_file d w = (inl (IsADirectoryError (target_file_of d)), w') /\
  forall ds, for_each (d :: ds) sync_file w =
             (inl (IsADirectoryError (target_file_of d)), w').
Proof.
  intros Hd HT w'.
  assert (sync_file d w = (inl (IsADirectoryError (target_file_of d)), w')) as Hrun.
  { unfold sync_file. rewrite Hd. cbn [negb].
    unfold bind, os.exists_, print, emit, load_translations, read_file,
      write_lines, ret, bind, os.exists_.
    cbn [w_fs w_log]. rewrite HT.
    rewrite (bool_decide_true (is_Some (Some (Dir es)))) by eauto.
    cbn [negb w_fs w_log]. rewrite HT.
    rewrite (bool_decide_true (is_Some (Some (Dir es)))) by eauto.
    cbn [negb w_fs w_log]. rewrite HT. unfold w'. by rewrite <- !app_assoc. }
  split; [done|]. intros ds. cbn [for_each]. unfold bind at 1. by rewrite Hrun.
Qed.

Lemma sync_file_target_is_directory_witness :
  let w := World {[ target_file_of (cp "values-fr") := Dir [] ]} [] in
  (sync_file (cp "values-fr") w).1 =
    inl (IsADirectoryError (target_file_of (cp "values-fr"))).
Proof.
  intros w.
  destruct (sync_file_target_is_directory (cp "values-fr") w []) as [-> _];
    [reflexivity| |done].
  apply lookup_singleton_eq.
Defined.

(** ** Reading the table *)

(** For a path that does not exist [load_translations] returns the empty
    table without opening anything. *)
Theorem load_translations_missing p w :
  w_fs w !! p = None ->
  load_translations p w = (inr ∅, World (w_fs w) (w_log w ++ [EvExists p])).
Proof.
  intros H. unfold load_translations, bind, os.exists_, ret. rewrite H.
  by rewrite bool_decide_false by (by intros [? ?]).
Qed.

Lemma load_translations_missing_witness :
  load_translations (cp "x") (World ∅ []) =
    (inr ∅, World ∅ [EvExists (cp "x")]).
Proof. apply (load_translations_missing (cp "x") (World ∅ [])). reflexivity. Defined.

(** ** The directories that [main] selects *)

Lemma select_target_dirs_run names w :
  select_target_dirs names w =
    (inr (List.filter (is_target_dir (w_fs w)) names),
     World (w_fs w) (w_log w ++ isdir_events names)).
Proof.
  destruct w as [fs log]. cbn [w_fs w_log]. revert log.
  induction names as [|d names IH]; intros log.
  - unfold isdir_events. cbn. by rewrite app_nil_r.
  - cbn [select_target_dirs List.filter]. unfold bind at 1.
    unfold is_target_dir at 1, isdir_events. cbn [List.filter].
    destruct (startswith d (cp "values-")) eqn:Hd; cbn [andb].
    + unfold os.isdir at 1. cbn [w_fs w_log]. unfold bind at 1. rewrite IH.
      unfold ret. cbn [map]. rewrite <- app_assoc. cbn [app].
      by destruct (fs !! os.join VALUES_DIR [d]) as [[?|?]|].
    + unfold ret at 1. unfold bind at 1. by rewrite IH.
Qed.

(** The list comprehension of [main] keeps, in the order of the listing, the
    names that start with [values-] and are directories under [VALUES_DIR];
    it asks [isdir] only of the names with the prefix and changes no file. *)
Theorem select_target_dirs_filter names w :
  select_target_dirs names w =
    (inr (List.filter (is_target_dir (w_fs w)) names),
     World (w_fs w) (w_log w ++ isdir_events names)).
Proof. apply select_target_dirs_run. Qed.







(** ** Running the matcher *)

Lemma all_in_not c (l : list N) : c ∉ l -> all_in (CNot c) l.
Proof.
  intros H. apply Forall_forall. intros x Hx. cbn [cset_mem].
  destruct (N.eqb_spec x c) as [->|]; done.
Qed.

Lemma all_in_dotall (l : list N) : all_in (CDot true) l.
Proof. apply Forall_forall. by intros x _. Qed.

Section Run.
Context {A : Type}.

Lemma rep_greedy_stop cs s pos (k : list N -> nat -> option A) :
  stops cs s -> rep_greedy cs 0 s pos k = k s pos.
Proof.
  destruct s as [|c s]; cbn [stops rep_greedy]; [done|]. by intros ->.
Qed.

(** A greedy repetition whose continuation succeeds after the longest run. *)
Lemma rep_greedy_take cs min l s pos (k : list N -> nat -> option A) x :
  all_in cs l -> stops cs s -> min <= length l ->
  k s (pos + length l) = Some x ->
  rep_greedy cs min (l ++ s) pos k = Some x.
Proof.
  intros Hl Hs. revert min pos.
  induction Hl as [|c l Hc _ IH]; intros min pos Hmin Hk.
  - simpl in Hmin. assert (min = 0) as -> by lia. rewrite Nat.add_0_r in Hk.
    cbn [app]. by rewrite rep_greedy_stop.
  - cbn [app rep_greedy]. rewrite Hc.
    rewrite (IH (Nat.pred min) (S pos)); [done|simpl in Hmin; lia|].
    rewrite <- Hk. f_equal. simpl. lia.
Qed.

(** A greedy repetition gives back a character when nothing matches after
    it. *)
Lemma rep_greedy_back cs c s pos (k : list N -> nat -> option A) :
  cset_mem cs c = true ->
  rep_greedy cs 0 s (S pos) k = None ->
  rep_greedy cs 0 (c :: s) pos k = k (c :: s) pos.
Proof. intros Hc Hs. cbn [rep_greedy Nat.pred]. by rewrite Hc, Hs. Qed.

(** A lazy repetition stops at the first place where the rest matches. *)
Lemma rep_lazy_run cs l s pos (k : list N -> nat -> option A) :
  all_in cs l ->
  (forall i, i < length l -> k (drop i (l ++ s)) (pos + i) = None) ->
  rep_lazy cs 0 (l ++ s) pos k =
    match k s (pos + length l) with
    | Some x => Some x
    | None => rep_lazy cs 0 s (pos + length l) k
    end.
Proof.
  intros Hl. revert pos. induction Hl as [|c l Hc _ IH]; intros pos Hk.
  - cbn [app length]. rewrite Nat.add_0_r.
    destruct s; cbn [rep_lazy]; by destruct (k _ pos).
  - cbn [app rep_lazy].
    pose proof (Hk 0 ltac:(simpl; lia)) as H0. rewrite Nat.add_0_r in H0.
    cbn [drop app] in H0. rewrite H0, Hc.
    rewrite IH.
    + cbn [length]. by replace (S pos + length l) with (pos + S (length l)) by lia.
    + intros i Hi. specialize (Hk (S i) ltac:(simpl; lia)). cbn [drop app] in Hk.
      by replace (S pos + i) with (pos + S i) by lia.
Qed.

End Run.

(** ** The name attribute is found where it is *)

Lemma name_attr_not_in_key k (rest : list N) :
  EQUALS ∉ k -> strip_prefix NAME_ATTR (k ++ QUOTE :: GT :: rest) = None.
Proof.
  intros Hk.
  destruct k as [|c1 [|c2 [|c3 [|c4 [|c5 k]]]]]; cbn [app].
  1-5: by repeat (cbn [strip_prefix NAME_ATTR cp app]; try done;
                  match goal with
                  | |- context [N.eqb ?a ?b] => destruct (N.eqb_spec a b); try done
                  end).
  rewrite !not_elem_of_cons in Hk. destruct Hk as (_ & _ & _ & _ & H5 & _).
  cbn [strip_prefix NAME_ATTR cp app].
  repeat match goal with
         | |- context [N.eqb ?a ?b] => destruct (N.eqb_spec a b); try done
         end.
  all: subst; by destruct H5.
Qed.

Section NameAttr.
Context {A : Type} (K : list N -> nat -> option A).
Hypothesis HK : forall s p, strip_prefix NAME_ATTR s = None -> K s p = None.

Lemma rep_greedy_key_none k rest pos :
  GT ∉ k -> EQUALS ∉ k ->
  rep_greedy (CNot GT) 0 (k ++ QUOTE :: GT :: rest) pos K = None.
Proof.
  revert pos. induction k as [|c k IH]; intros pos Hgt Heq; cbn [app].
  - rewrite rep_greedy_back; [by apply HK|done|].
    rewrite rep_greedy_stop by done. by apply HK.
  - apply not_elem_of_cons in Hgt as [Hc Hgt].
    rewrite rep_greedy_back.
    + apply HK. by apply (name_attr_not_in_key (c :: k)).
    + cbn [cset_mem]. by destruct (N.eqb_spec c GT).
    + apply IH; [done|]. by apply not_elem_of_cons in Heq as [_ ?].
Qed.

Lemma rep_greedy_name_attr k rest pos :
  GT ∉ k -> EQUALS ∉ k ->
  rep_greedy (CNot GT) 0 (NAME_ATTR ++ k ++ QUOTE :: GT :: rest) pos K =
    K (NAME_ATTR ++ k ++ QUOTE :: GT :: rest) pos.
Proof.
  intros Hgt Heq.
  change (NAME_ATTR ++ k ++ QUOTE :: GT :: rest)
    with (110 :: 97 :: 109 :: 101 :: 61 :: 34 :: k ++ QUOTE :: GT :: rest)%N.
  rewrite rep_greedy_back; [done|done|].
  do 5 (rewrite rep_greedy_back; [by apply HK|done|]).
  by apply rep_greedy_key_none.
Qed.

End NameAttr.

Lemma translation_match_entry k v more pos :
  key_ok k ->
  (forall i, i < length v ->
             strip_prefix CLOSE_TAG (drop i (v ++ CLOSE_TAG ++ more)) = None) ->
  match_at translation_pattern (simple_entry k v ++ more) pos =
    Some (Match pos (pos + length (simple_entry k v))
                [(2, (pos + 16 + length k, pos + 16 + length k + length v));
                 (1, (pos + 14, pos + 14 + length k))]).
Proof.
  intros (Hne & Hq & Hgt & Heq) Hv.
  unfold match_at, translation_pattern, seq_of. cbn [foldr rmatch].
  unfold simple_entry, simple_open. rewrite <- !(assoc_L (++)).
  change ([QUOTE; GT] ++ v ++ CLOSE_TAG ++ more)
    with (QUOTE :: GT :: v ++ CLOSE_TAG ++ more).
  rewrite strip_prefix_app.
  apply rep_greedy_take; [by repeat constructor|done|simpl; lia|].
  rewrite rep_greedy_name_attr; [|by intros s p ->|done|done].
  rewrite strip_prefix_app.
  apply rep_greedy_take; [by apply all_in_not|done|destruct k; [done|simpl; lia]|].
  change (QUOTE :: GT :: v ++ CLOSE_TAG ++ more)
    with ([QUOTE] ++ [GT] ++ v ++ CLOSE_TAG ++ more).
  rewrite strip_prefix_app.
  rewrite rep_greedy_stop by done.
  rewrite strip_prefix_app.
  rewrite rep_lazy_run; [|apply all_in_dotall|by intros i Hi; rewrite Hv].
  rewrite strip_prefix_app.
  rewrite !length_app. cbn [length OPEN_TAG NAME_ATTR CLOSE_TAG cp app].
  f_equal. f_equal; [lia|].
  f_equal; [do 2 f_equal; lia|]. f_equal. do 2 f_equal; lia.
Qed.

(** ** [str.find] *)

Lemma find_None_inv sub (s : list N) i :
  find sub s = None -> strip_prefix sub (drop i s) = None.
Proof.
  revert i. induction s as [|c s IH]; intros i; cbn [find].
  - destruct (strip_prefix sub []) eqn:E; [done|]. intros _. by destruct i.
  - destruct (strip_prefix sub (c :: s)) eqn:E; [done|].
    destruct (find sub s) eqn:F; [done|]. intros _.
    destruct i as [|i]; [done|]. cbn [drop]. by apply IH.
Qed.

Lemma find_Some_inv sub (s : list N) n :
  find sub s = Some n ->
  (forall i, i < n -> strip_prefix sub (drop i s) = None) /\
  is_Some (strip_prefix sub (drop n s)).
Proof.
  revert n. induction s as [|c s IH]; intros n; cbn [find].
  - destruct (strip_prefix sub []) eqn:E; [|done]. intros [= <-].
    split; [lia|]. by rewrite drop_0, E.
  - destruct (strip_prefix sub (c :: s)) eqn:E.
    + intros [= <-]. split; [lia|]. by rewrite drop_0, E.
    + destruct (find sub s) as [n'|] eqn:F; [|done]. intros [= <-].
      destruct (IH n' eq_refl) as [Hlt Hat]. split; [|done].
      intros [|i] Hi; [done|]. cbn [drop]. apply Hlt. lia.
Qed.

Lemma strip_prefix_app_None p (a b : list N) :
  strip_prefix p a = None -> length p <= length a -> strip_prefix p (a ++ b) = None.
Proof.
  revert a. induction p as [|c p IH]; intros [|d a]; cbn [strip_prefix app length];
    try done; try lia.
  destruct (N.eqb c d); [|done]. intros H Hl. apply IH; [done|lia].
Qed.

(** ** Where no match of the pattern starts *)

Lemma translation_no_match s pos :
  strip_prefix OPEN_TAG s = None -> match_at translation_pattern s pos = None.
Proof.
  intros H. unfold match_at, translation_pattern, seq_of. cbn [foldr rmatch].
  by rewrite H.
Qed.

Lemma open_tag_straddle (t X : list N) :
  t <> [] -> strip_prefix OPEN_TAG t = None ->
  strip_prefix OPEN_TAG (t ++ OPEN_TAG ++ X) = None.
Proof.
  intros Ht H0.
  destruct t as [|c1 [|c2 [|c3 [|c4 [|c5 [|c6 [|c7 t]]]]]]]; [done|..].
  7: { apply strip_prefix_app_None; [done|]. simpl. lia. }
  all: clear; cbn [strip_prefix OPEN_TAG cp app];
    repeat match goal with
           | |- context [N.eqb ?a ?b] => destruct (N.eqb_spec a b); try done
           end.
Qed.

Lemma no_open_before_entry gap X i pos :
  no_open gap -> i < length gap ->
  match_at translation_pattern (drop i (gap ++ OPEN_TAG ++ X)) pos = None.
Proof.
  intros Hgap Hi. apply translation_no_match.
  rewrite drop_app_le by lia. apply open_tag_straddle.
  - intros H. apply (f_equal length) in H. rewrite length_drop in H. simpl in H. lia.
  - by apply find_None_inv.
Qed.

(** ** Scanning *)

Lemma finditer_from_skip r (a b : list N) pos :
  finditer_from r (a ++ b) pos (length a) = finditer_from r b (pos + length a) 0.
Proof.
  revert pos. induction a as [|c a IH]; intros pos; cbn [app length finditer_from].
  - by rewrite Nat.add_0_r.
  - rewrite IH. f_equal. lia.
Qed.

Lemma finditer_from_none r (a b : list N) pos :
  (forall i, i < length a -> match_at r (drop i (a ++ b)) (pos + i) = None) ->
  finditer_from r (a ++ b) pos 0 = finditer_from r b (pos + length a) 0.
Proof.
  revert pos. induction a as [|c a IH]; intros pos H; cbn [app length].
  - by rewrite Nat.add_0_r.
  - cbn [finditer_from].
    pose proof (H 0 ltac:(simpl; lia)) as H0. rewrite Nat.add_0_r in H0.
    cbn [drop app] in H0. rewrite H0. rewrite IH.
    + f_equal. lia.
    + intros i Hi. specialize (H (S i) ltac:(simpl; lia)). cbn [drop app] in H.
      by replace (S pos + i) with (pos + S i) by lia.
Qed.

Lemma finditer_from_end r (s : list N) pos :
  (forall i, match_at r (drop i s) (pos + i) = None) ->
  finditer_from r s pos 0 = [].
Proof.
  intros H. rewrite <- (app_nil_r s). rewrite finditer_from_none.
  - cbn [finditer_from]. specialize (H (length s)). rewrite drop_all in H.
    by rewrite H.
  - intros i _. rewrite app_nil_r. apply H.
Qed.

Lemma finditer_from_match r (x b : list N) pos m :
  x <> [] -> match_at r (x ++ b) pos = Some m -> m_end m = pos + length x ->
  finditer_from r (x ++ b) pos 0 = m :: finditer_from r b (pos + length x) 0.
Proof.
  intros Hx Hm He. destruct x as [|c x]; [done|].
  cbn [app finditer_from]. cbn [app] in Hm. rewrite Hm. f_equal.
  rewrite He. cbn [length].
  replace (pos + S (length x) - pos - 1) with (length x) by lia.
  rewrite finditer_from_skip. f_equal. lia.
Qed.

Lemma closed_value_first v more i :
  closed_value v -> i < length v ->
  strip_prefix CLOSE_TAG (drop i (v ++ CLOSE_TAG ++ more)) = None.
Proof.
  intros [Hv _]%find_Some_inv Hi. rewrite (assoc_L (++)).
  rewrite drop_app_le by (rewrite length_app; lia).
  apply strip_prefix_app_None; [by apply Hv|].
  rewrite length_drop, length_app. lia.
Qed.

Lemma entry_groups (seen gap k v rest : list N) :
  let content := seen ++ gap ++ simple_entry k v ++ rest in
  let p := length seen + length gap in
  let m := Match p (p + length (simple_entry k v))
                 [(2, (p + 16 + length k, p + 16 + length k + length v));
                  (1, (p + 14, p + 14 + length k))] in
  group content m 1 = k /\ group content m 2 = v.
Proof.
  intros content p m. unfold group, m; cbn [m_caps cap_lookup Nat.eqb]. split.
  - apply (slice_of_split _ _ _ (seen ++ gap ++ OPEN_TAG ++ cp " " ++ NAME_ATTR) _
             ([QUOTE; GT] ++ v ++ CLOSE_TAG ++ rest)).
    + unfold content, simple_entry, simple_open. by rewrite <- !(assoc_L (++)).
    + unfold p. rewrite ?length_app; simpl; rewrite ?length_app; simpl; lia.
    + lia.
  - apply (slice_of_split _ _ _
             (seen ++ gap ++ OPEN_TAG ++ cp " " ++ NAME_ATTR ++ k ++ [QUOTE; GT]) _
             (CLOSE_TAG ++ rest)).
    + unfold content, simple_entry, simple_open. by rewrite <- !(assoc_L (++)).
    + unfold p. rewrite ?length_app; simpl; rewrite ?length_app; simpl; lia.
    + lia.
Qed.

Lemma collect_render (seen : list N) (es : list entry) (final : list N)
    (init : gmap (list N) (list N)) :
  Forall entry_ok es -> no_open final ->
  foldl (fun translations m =>
           <[group (seen ++ render es final) m 1 :=
               group (seen ++ render es final) m 2]> translations)
        init
        (finditer_from translation_pattern (render es final) (length seen) 0)
  = foldl (fun translations e => <[e_key e := e_value e]> translations) init es.
Proof.
  intros Hes Hfinal. revert seen init.
  induction Hes as [|[gap k v] es (Hgap & Hk & Hv) _ IH]; intros seen init.
  - cbn [render foldl]. rewrite finditer_from_end; [done|].
    intros i. apply translation_no_match. by apply find_None_inv.
  - cbn [render foldl e_gap e_key e_value] in *.
    rewrite finditer_from_none.
    2:{ intros i Hi. unfold simple_entry, simple_open.
        rewrite <- !(assoc_L (++)). by apply no_open_before_entry. }
    rewrite (finditer_from_match _ _ _ _
               (Match (length seen + length gap)
                      (length seen + length gap + length (simple_entry k v))
                      [(2, (length seen + length gap + 16 + length k,
                            length seen + length gap + 16 + length k + length v));
                       (1, (length seen + length gap + 14,
                            length seen + length gap + 14 + length k))])).
    + cbn [foldl].
      destruct (entry_groups seen gap k v (render es final)) as [-> ->].
      specialize (IH (seen ++ gap ++ simple_entry k v) (<[k := v]> init)).
      rewrite <- !(assoc_L (++)) in IH. rewrite !length_app in IH.
      rewrite <- IH. by rewrite !(assoc_L Nat.add).
    + unfold simple_entry, simple_open. by destruct OPEN_TAG eqn:E.
    + apply translation_match_entry; [done|].
      intros i Hi. by apply closed_value_first.
    + done.
Qed.

Lemma collect_translations_render (es : list entry) (final : list N) :
  Forall entry_ok es -> no_open final ->
  collect_translations (render es final) = entries_table es.
Proof.
  intros Hes Hfinal. unfold collect_translations, finditer, entries_table.
  apply (collect_render [] es final ∅ Hes Hfinal).
Qed.

(** ** Every match that [finditer] returns is a match *)

Lemma finditer_from_inv r (s : list N) pos skip m :
  m ∈ finditer_from r s pos skip ->
  exists pre post, s = pre ++ post /\ match_at r post (pos + length pre) = Some m.
Proof.
  revert pos skip. induction s as [|c s IH]; intros pos skip.
  - destruct skip; cbn [finditer_from]; [|by intros ?%elem_of_nil].
    destruct (match_at r [] pos) eqn:E; [|by intros ?%elem_of_nil].
    intros ->%list_elem_of_singleton. exists [], []. by rewrite Nat.add_0_r.
  - assert ((exists n, m ∈ finditer_from r s (S pos) n) ->
            exists pre post, c :: s = pre ++ post /\
                             match_at r post (pos + length pre) = Some m) as Hrec.
    { intros [n H]. apply IH in H as (pre & post & -> & Hm).
      exists (c :: pre), post. split; [done|].
      rewrite <- Hm. f_equal. simpl. lia. }
    destruct skip as [|skip]; cbn [finditer_from].
    + destruct (match_at r (c :: s) pos) eqn:E.
      * intros [->|H]%elem_of_cons.
        -- exists [], (c :: s). by rewrite Nat.add_0_r.
        -- apply Hrec. eauto.
      * intros H. apply Hrec. eauto.
    + intros H. apply Hrec. eauto.
Qed.

(** ** What a match of the translation pattern looks like *)

Lemma strip_prefix_app_Some p (a b a' : list N) :
  strip_prefix p a = Some a' -> strip_prefix p (a ++ b) = Some (a' ++ b).
Proof.
  intros ->%strip_prefix_Some. rewrite <- app_assoc. apply strip_prefix_app.
Qed.

Lemma translation_match_shape s pos m :
  match_at translation_pattern s pos = Some m ->
  exists tag key b v rest,
    s = (tag ++ key ++ [QUOTE] ++ b ++ [GT]) ++ v ++ CLOSE_TAG ++ rest /\
    key <> [] /\ (QUOTE ∉ key) /\ closed_value v /\
    m_caps m =
      [(2, (pos + length (tag ++ key ++ [QUOTE] ++ b ++ [GT]),
            pos + length (tag ++ key ++ [QUOTE] ++ b ++ [GT]) + length v));
       (1, (pos + length tag, pos + length tag + length key))].
Proof.
  unfold match_at, translation_pattern, seq_of. cbn [foldr]. intros H.
  do 8 (apply rmatch_cat_sound in H as (? & ? & ? & ? & H)).
  cbn [rmatch] in H.
  apply rep_lazy_first in H as (v & s' & -> & _ & Hk & Hmin).
  destruct (strip_prefix CLOSE_TAG s') as [rest|] eqn:Hclose; [|done].
  apply strip_prefix_Some in Hclose as ->. injection Hk as <-.
  cbn [matches] in *.
  repeat match goal with
         | H : exists _, _ |- _ => destruct H
         | H : _ /\ _ |- _ => destruct H
         end; subst.
  cbn [m_caps].
  rename x25 into ws, x24 into a, x26 into key, x20 into b.
  exists (OPEN_TAG ++ ws ++ a ++ NAME_ATTR), key, b, v, rest. split_and!.
  - by rewrite <- !(assoc_L (++)).
  - intros ->. simpl in *. lia.
  - intros Hq. unfold all_in in *.
    match goal with H : Forall _ key |- _ => rewrite Forall_forall in H;
      apply H in Hq end.
    by vm_compute in Hq.
  - apply find_first.
    + intros i Hi. specialize (Hmin i Hi).
      destruct (strip_prefix CLOSE_TAG (drop i (v ++ CLOSE_TAG))) as [t|] eqn:E;
        [|done].
      apply (strip_prefix_app_Some _ _ rest) in E.
      rewrite <- drop_app_le in E by (rewrite length_app; lia).
      rewrite <- (assoc_L (++)) in E. by rewrite E in Hmin.
    + rewrite drop_app_length. rewrite <- (app_nil_r CLOSE_TAG) at 2.
      by rewrite strip_prefix_app.
    + rewrite length_app. lia.
  - rewrite !length_app.
    repeat match goal with
           | |- @eq nat _ _ => lia
           | |- _ => f_equal
           end.
Qed.

(** ** What the table holds *)

Lemma collect_translations_binding content k v :
  collect_translations content !! k = Some v ->
  k <> [] /\ (QUOTE ∉ k) /\ closed_value v /\
  exists before after, content = before ++ v ++ CLOSE_TAG ++ after.
Proof.
  intros (m & Hm & Hk & Hv)%collect_translations_inv.
  unfold finditer in Hm.
  apply finditer_from_inv in Hm as (pre & post & -> & Hm).
  apply translation_match_shape in Hm
    as (tag & key & b & v' & rest & -> & Hne & Hq & Hclosed & Hcaps).
  assert (k = key /\ v = v') as [-> ->].
  { unfold group in *. rewrite Hcaps in *. cbn [cap_lookup Nat.eqb] in *.
    split.
    - rewrite <- Hk.
      apply (slice_of_split _ _ _ (pre ++ tag) _
               ([QUOTE] ++ b ++ [GT] ++ v' ++ CLOSE_TAG ++ rest)).
      + by rewrite <- !(assoc_L (++)).
      + rewrite ?length_app; simpl; lia.
      + rewrite ?length_app; simpl; lia.
    - rewrite <- Hv.
      apply (slice_of_split _ _ _ (pre ++ tag ++ key ++ [QUOTE] ++ b ++ [GT]) _
               (CLOSE_TAG ++ rest)).
      + by rewrite <- !(assoc_L (++)).
      + rewrite ?length_app; simpl; lia.
      + rewrite ?length_app; simpl; lia. }
  split_and!; try done.
  exists (pre ++ tag ++ key ++ [QUOTE] ++ b ++ [GT]), rest.
  by rewrite <- !(assoc_L (++)).
Qed.

(** ** The line pattern on a simple entry *)








(** ** Texts without an opening tag *)




Lemma no_open_nil : no_open [].
Proof. reflexivity. Qed.


(** ** Values without a closing tag *)



(** ** The file written, as a sequence of entries *)



(** ** The table of a sequence of entries with distinct keys *)



(** ** No carriage return is written *)


Lemma rewrite_line_elem tr line x :
  x ∈ rewrite_line tr line ->
  x ∈ line \/ x ∈ TODO_PREFIX \/ exists k v, tr !! k = Some v /\ x ∈ v.
Proof.
  destruct (search line_pattern line) as [m|] eqn:Hs.
  - destruct (rewrite_line_split tr line m Hs) as (Hline & ->).
    assert (forall y,
              y ∈ take (m_start m) line \/ y ∈ group line m 1 \/
              y ∈ group line m 2 \/ y ∈ group line m 3 \/
              y ∈ group line m 4 \/ y ∈ CLOSE_TAG \/
              y ∈ drop (m_end m) line -> y ∈ line) as Hparts.
    { intros y Hy. rewrite Hline. by rewrite !elem_of_app. }
    rewrite !elem_of_app.
    destruct (tr !! group line m 2) as [v|] eqn:Htr.
    + intros [?|[?|[?|[?|[?|[?|?]]]]]]; try (left; apply Hparts; tauto).
      right. right. eauto.
    + rewrite elem_of_app.
      intros [?|[?|[?|[?|[[?|?]|[?|?]]]]]]; try (left; apply Hparts; tauto).
      right. by left.
  - rewrite rewrite_line_no_match by done. by left.
Qed.

Lemma synced_no_cr T C : CR ∉ synced T C.
Proof.
  unfold synced. rewrite rewrite_lines_map. intros H.
  apply list_elem_of_In, in_concat in H as (new_line & Hin & Hx).
  apply in_map_iff in Hin as (line & <- & Hline).
  apply list_elem_of_In, rewrite_line_elem in Hx as [Hx|[Hx|(k & v & Hk & Hx)]].
  - apply (universal_newlines_no_cr C).
    pose proof (readlines_acc_concat (universal_newlines C) []) as Hc.
    cbn [rev app] in Hc. rewrite <- Hc. fold (readlines (universal_newlines C)).
    apply list_elem_of_In, in_concat. exists line. split; [done|].
    by apply list_elem_of_In.
  - apply list_elem_of_In in Hx. cbv in Hx. intuition discriminate.
  - apply collect_translations_binding in Hk as (_ & _ & _ & before & after & Hc).
    apply (universal_newlines_no_cr T). rewrite Hc, !elem_of_app. eauto.
Qed.

(** ** A second run *)



(** ** The extractor on a file of simple entries *)




(** On a text made of simple entries, each after a part without [<string],
    with keys written without quote, [>] or [=] and values without a closing
    tag, [load_translations] returns exactly the entries, a later entry
    replacing an earlier one with the same key. *)
Theorem load_translations_entries p w content es final :
  w_fs w !! p = Some (File content) ->
  universal_newlines content = render es final ->
  Forall entry_ok es -> no_open final ->
  load_translations p w =
    (inr (entries_table es), World (w_fs w) (w_log w ++ [EvExists p; EvRead p])).
Proof.
  intros Hp Htext Hes Hfinal.
  rewrite (load_translations_run p w content Hp). do 2 f_equal.
  rewrite Htext. by apply collect_translations_render.
Qed.

Lemma load_translations_entries_witness :
  let content := cp "<resources>" ++ [LF] ++
                 simple_entry (cp "a") (cp "one") ++ [LF] ++
                 simple_entry (cp "b") (cp "two") ++ [LF] ++
                 simple_entry (cp "a") (cp "three") ++ [LF] ++
                 cp "</resources>" ++ [LF] in
  let w := World {[ cp "strings.xml" := File content ]} [] in
  exists translations,
    load_translations (cp "strings.xml") w =
      (inr translations,
       World (w_fs w) ([] ++ [EvExists (cp "strings.xml"); EvRead (cp "strings.xml")])) /\
    translations !! cp "a" = Some (cp "three") /\
    translations !! cp "b" = Some (cp "two").
Proof.
  intros content w.
  pose proof (load_translations_entries (cp "strings.xml") w content
                [Entry (cp "<resources>" ++ [LF]) (cp "a") (cp "one");
                 Entry [LF] (cp "b") (cp "two");
                 Entry [LF] (cp "a") (cp "three")]
                ([LF] ++ cp "</resources>" ++ [LF])) as H.
  eexists. split.
  - apply H.
    + apply lookup_singleton_eq.
    + vm_compute. reflexivity.
    + repeat constructor; try done;
        intros Hin%list_elem_of_In; cbv in Hin; intuition discriminate.
    + reflexivity.
  - split; vm_compute; reflexivity.
Defined.

(** Every binding of a table that [load_translations] builds has a key that
    is not empty and holds no quote, and a value that holds no closing tag
    and is followed by one in the text. *)
Theorem collect_translations_values content k v :
  collect_translations content !! k = Some v ->
  k <> [] /\ (QUOTE ∉ k) /\ closed_value v /\
  exists before after, content = before ++ v ++ CLOSE_TAG ++ after.
Proof. apply collect_translations_binding. Qed.

Lemma collect_translations_values_witness :
  closed_value (cp "a").
Proof.
  apply (collect_translations_values
           (simple_entry (cp "k") (cp "a</string>b") ++ [LF]) (cp "k") (cp "a")).
  vm_compute. reflexivity.
Defined.

(** ** A second run *)





(** The text that [sync_file] writes holds no carriage return, whatever the
    two files hold: both are read with newline translation and written as
    they are. *)
Theorem sync_file_writes_no_cr d w T C :
  startswith d (cp "values-") = true ->
  w_fs w !! target_file_of d = Some (File T) ->
  w_fs w !! ENGLISH_FILE = Some (File C) ->
  exists data,
    w_fs (sync_file d w).2 !! target_file_of d = Some (File data) /\ (CR ∉ data).
Proof.
  intros Hd HT HC. exists (synced T C).
  rewrite (sync_file_run d w T C Hd HT HC). cbn [snd w_fs].
  split; [apply lookup_insert_eq|apply synced_no_cr].
Qed.

Lemma sync_file_writes_no_cr_witness :
  let C := simple_entry (cp "a") (cp "A") ++ [CR; LF] in
  let T := simple_entry (cp "a") (cp "Un") ++ [CR; LF] in
  exists data,
    w_fs (sync_file (cp "values-fr") (demo_world C T)).2
      !! target_file_of (cp "values-fr") = Some (File data) /\ (CR ∉ data).
Proof.
  intros C T.
  apply (sync_file_writes_no_cr (cp "values-fr") (demo_world C T) T C).
  - reflexivity.
  - apply demo_world_target.
  - apply demo_world_english.
Defined.

(** ** A whole run *)



(** ** The path of a target file *)

Lemma endswith_char_app (a b : list N) c :
  b <> [] -> endswith_char (a ++ b) c = endswith_char b c.
Proof.
  intros Hb. induction a as [|x a IH]; [done|].
  cbn [app endswith_char]. rewrite IH.
  destruct (a ++ b) eqn:E; [|done].
  by apply app_eq_nil in E as [_ ?].
Qed.

(** For a directory name that starts with [values-] and does not end with a
    slash, the target file is [VALUES_DIR], the name and [strings.xml]
    joined by slashes. *)
Theorem target_file_of_plain d :
  startswith d (cp "values-") = true -> endswith_char d 47 = false ->
  target_file_of d = VALUES_DIR ++ cp "/" ++ d ++ cp "/strings.xml".
Proof.
  unfold startswith. destruct (strip_prefix _ d) as [d'|] eqn:E; [|done].
  intros _ Hend. apply strip_prefix_Some in E as ->.
  unfold target_file_of, os.join. cbn [foldl].
  change (os.join2 VALUES_DIR (cp "values-" ++ d'))
    with (cp "app/src/main/res/" ++ cp "values-" ++ d').
  unfold os.join2.
  change (startswith (cp "strings.xml") (cp "/")) with false. cbv iota.
  rewrite endswith_char_app by done. rewrite Hend.
  destruct (cp "app/src/main/res/" ++ cp "values-" ++ d') as [|c l] eqn:E;
    [discriminate E|].
  rewrite <- E. by rewrite <- !app_assoc.
Qed.

Lemma target_file_of_plain_witness :
  target_file_of (cp "values-fr") = cp "app/src/main/res/values-fr/strings.xml".
Proof. apply (target_file_of_plain (cp "values-fr")); reflexivity. Defined.

(** ** Lines that a run leaves as they are *)

(** A line whose entry has, in the table, a translation equal to its English
    content is written as it is. *)
Theorem rewrite_line_same tr line m :
  search line_pattern line = Some m ->
  tr !! group line m 2 = Some (group line m 4) ->
  rewrite_line tr line = line.
Proof.
  intros Hs Htr. destruct (rewrite_line_split tr line m Hs) as (Hline & ->).
  rewrite Htr. by rewrite <- Hline.
Qed.

Lemma rewrite_line_same_witness :
  let line := simple_entry (cp "app_name") (cp "AirRally") ++ [LF] in
  rewrite_line {[ cp "app_name" := cp "AirRally" ]} line = line.
Proof.
  intros line.
  assert (search line_pattern line =
          Some (Match 0 41 [(5, (32, 41)); (4, (24, 32)); (3, (22, 24));
                            (2, (14, 22)); (1, (0, 14))])) as Hs
    by (vm_compute; reflexivity).
  apply (rewrite_line_same _ line _ Hs). vm_compute. reflexivity.
Defined.

(** [load_translations] only reads: whatever the path holds and however the
    call ends, the file system is the same after it and nothing is written. *)
Theorem load_translations_reads_only p w :
  w_fs (load_translations p w).2 = w_fs w /\
  exists evs, w_log (load_translations p w).2 = w_log w ++ evs /\ written evs = [].
Proof.
  unfold load_translations, bind, os.exists_, read_file, ret. cbn [w_fs w_log].
  destruct (w_fs w !! p) as [[c|es]|] eqn:Hp.
  - rewrite (bool_decide_true (is_Some (Some (File c)))) by eauto.
    cbn [negb w_fs w_log]. rewrite Hp. cbn [snd w_fs w_log]. split; [done|].
    eexists. by rewrite <- app_assoc.
  - rewrite (bool_decide_true (is_Some (Some (Dir es)))) by eauto.
    cbn [negb w_fs w_log]. rewrite Hp. cbn [snd w_fs w_log]. split; [done|].
    eexists. by rewrite <- app_assoc.
  - rewrite bool_decide_false by (by intros [? ?]).
    cbn [negb snd w_fs w_log]. split; [done|]. by eexists.
Qed.
